(** * The message dispatcher of the unpacker NaCl module

    A shallow embedding of [unpacker/cpp/module.cc]: the class
    [NaclArchiveInstance], which owns the map from file system ids to
    [Volume] objects and routes every message coming from JavaScript, and
    [ModuleJavaScriptMessageSender], the only path to [PostMessage].

    The dispatcher is sequential code over three pieces of state: the map
    [volumes_], the [Volume] objects it points to (allocated with [new],
    released with [delete]) and the messages already posted to JavaScript.
    It is embedded in a state monad whose results also record the two ways
    in which the C++ code can stop early: a failed [PP_DCHECK] and
    undefined behaviour. *)

From Stdlib Require Import ZArith Strings.Byte.
From stdpp Require Import base option list strings gmap infinite.

Local Open Scope Z_scope.

(** ** Values exchanged with JavaScript: [pp::Var] *)

(** The kinds of [pp::Var] that the module tells apart (doubles, arrays,
    objects and resources, which it never asks for, are left out). An
    [int] is a 32 bit value; the module only compares it, so it is kept as
    a [Z]. *)
#[warnings="-register-all"]
Inductive Var :=
  | VarUndefined
  | VarNull
  | VarBool (b : bool)
  | VarInt (n : Z)
  | VarString (s : string)
  | VarArrayBuffer (bytes : list byte)
  | VarDictionary (d : gmap string Var).

Definition is_dictionary (v : Var) : bool :=
  match v with VarDictionary _ => true | _ => false end.

Definition is_int (v : Var) : bool :=
  match v with VarInt _ => true | _ => false end.

Definition is_string (v : Var) : bool :=
  match v with VarString _ => true | _ => false end.

Definition is_array_buffer (v : Var) : bool :=
  match v with VarArrayBuffer _ => true | _ => false end.

(** [pp::Var::AsInt] and [pp::Var::AsString]: on a value of another kind
    they return [0] and the empty string. (In a build with assertions they
    would stop at an assertion of their own; the module always asserts the
    kind itself before it converts a value.) *)
Definition AsInt (v : Var) : Z :=
  match v with VarInt n => n | _ => 0 end.

Definition AsString (v : Var) : string :=
  match v with VarString s => s | _ => EmptyString end.

(** [pp::VarDictionary var_dict(var_message)]: the entries of the
    dictionary, none when the value is not a dictionary. *)
Definition var_dict_of (var_message : Var) : gmap string Var :=
  match var_message with VarDictionary d => d | _ => ∅ end.

(** [pp::VarDictionary::Get]: an absent key reads as undefined. *)
Definition Get (var_dict : gmap string Var) (key : string) : Var :=
  default VarUndefined (var_dict !! key).

(** [pp::VarArrayBuffer array_buffer(var)]: a value of another kind is
    replaced by null. *)
Definition array_buffer_of (v : Var) : Var :=
  if is_array_buffer v then v else VarNull.

(** ** Messages posted to JavaScript *)

(** One constructor for each [request::Create...] function called by the
    message sender; the constructor stands for the dictionary that function
    builds from the same arguments. *)
Inductive Message :=
  | CreateFileSystemError (file_system_id request_id message : string)
  | CreateReadChunkRequest (file_system_id request_id : string)
                           (offset : Z) (bytes_to_read : N)
  | CreateReadMetadataDoneResponse (file_system_id request_id : string)
                                   (metadata : gmap string Var)
  | CreateOpenFileDoneResponse (file_system_id request_id : string)
  | CreateCloseFileDoneResponse
      (file_system_id request_id open_request_id : string)
  | CreateReadFileDoneResponse (file_system_id request_id : string)
                               (array_buffer : Var) (has_more_data : bool).

(** ** The interface [JavaScriptMessageSender] *)

(** A call of one of the six methods of the interface, with its
    arguments. A [Volume] holds a pointer to the interface and reaches
    JavaScript through these calls only. *)
Inductive SenderCall :=
  | SendFileSystemError (file_system_id request_id message : string)
  | SendFileChunkRequest (file_system_id request_id : string)
                         (offset : Z) (bytes_to_read : N)
  | SendReadMetadataDone (file_system_id request_id : string)
                         (metadata : gmap string Var)
  | SendOpenFileDone (file_system_id request_id : string)
  | SendCloseFileDone (file_system_id request_id open_request_id : string)
  | SendReadFileDone (file_system_id request_id : string)
                     (array_buffer : Var) (has_more_data : bool).

(** [ModuleJavaScriptMessageSender]: the argument that each method passes
    to [SafePostMessage]. *)
Definition message_of (c : SenderCall) : Message :=
  match c with
  | SendFileSystemError file_system_id request_id message =>
      CreateFileSystemError file_system_id request_id message
  | SendFileChunkRequest file_system_id request_id offset bytes_to_read =>
      CreateReadChunkRequest file_system_id request_id offset bytes_to_read
  | SendReadMetadataDone file_system_id request_id metadata =>
      CreateReadMetadataDoneResponse file_system_id request_id metadata
  | SendOpenFileDone file_system_id request_id =>
      CreateOpenFileDoneResponse file_system_id request_id
  | SendCloseFileDone file_system_id request_id open_request_id =>
      CreateCloseFileDoneResponse file_system_id request_id open_request_id
  | SendReadFileDone file_system_id request_id array_buffer has_more_data =>
      CreateReadFileDoneResponse file_system_id request_id array_buffer
        has_more_data
  end.

(** ** What [request.h] declares *)

(** The case labels of the switch in [HandleMessage]. *)
Inductive Operation :=
  | READ_METADATA
  | READ_CHUNK_DONE
  | READ_CHUNK_ERROR
  | OPEN_FILE
  | CLOSE_FILE
  | READ_FILE
  | CLOSE_VOLUME.

Global Instance Operation_eq_dec : EqDecision Operation.
Proof. solve_decision. Defined.

Definition all_operations : list Operation :=
  [READ_METADATA; READ_CHUNK_DONE; READ_CHUNK_ERROR; OPEN_FILE; CLOSE_FILE;
   READ_FILE; CLOSE_VOLUME].

(** [request.h] is not part of the sources at hand, so the dictionary keys,
    the integer value of each enumerator and [request::GetInt64FromString]
    are parameters of the development. A switch cannot have two equal case
    labels, hence [code_inj]. *)
Class RequestDecls := {
  kOperation : string;
  kFileSystemId : string;
  kRequestId : string;
  kArchiveSize : string;
  kChunkBuffer : string;
  kOffset : string;
  kFilePath : string;
  kOpenRequestId : string;
  kLength : string;
  code : Operation → Z;
  code_inj : ∀ o1 o2, code o1 = code o2 → o1 = o2;
  GetInt64FromString : gmap string Var → string → Z;
}.

(** ** What [volume.h] declares *)

(** Modelled from the spec: the class [Volume] of [volume.h], which is not
    part of the sources at hand. A [Volume] is an abstract object; each
    operation on it (ReadMetadata, OpenFile, CloseFile, ReadFile, ChunkDone,
    ChunkError) changes the object and may call the message sender it was
    constructed with. Creating a Volume and destroying it have no side
    effect beyond the registry and do not touch the transport, so the
    constructor, [Init] (which reports whether the new Volume is usable)
    and the destructor call no sender method. The instance handle and the
    address of the message sender are the same for every Volume of an
    instance and are left implicit. *)
Class VolumeOps := {
  Volume : Type;
  Volume_new : string → Volume;
  Volume_Init : Volume → bool * Volume;
  Volume_ReadMetadata : string → Z → Volume → Volume * list SenderCall;
  Volume_ReadChunkDone :
    string → Var → Z → Volume → Volume * list SenderCall;
  Volume_ReadChunkError : string → Volume → Volume * list SenderCall;
  Volume_OpenFile : string → string → Z → Volume → Volume * list SenderCall;
  Volume_CloseFile : string → string → Volume → Volume * list SenderCall;
  Volume_ReadFile :
    string → gmap string Var → Volume → Volume * list SenderCall;
}.

(** ** State and effects *)

(** Addresses of [Volume] objects on the free store. *)
Abbreviation addr := positive.

Section Dispatcher.
Context `{RequestDecls} `{VolumeOps}.

(** [volumes_] is the member of [NaclArchiveInstance]; [objects] is the part
    of the free store holding the Volumes created by the instance and not
    yet deleted; [posted] lists, oldest first, the messages handed to
    [pp::Instance::PostMessage]. *)
Record State := mkState {
  volumes_ : gmap string addr;
  objects : gmap addr Volume;
  posted : list Message;
}.

(** How a piece of the C++ code can end: it returns ([Done]) with a value
    and the state it leaves; a [PP_DCHECK] fails and the process aborts in
    the state reached so far ([Abort]); or it runs into undefined behaviour
    ([Undefined]): an end iterator dereferenced, a dead object used. *)
Inductive Outcome (A : Type) :=
  | Done (a : A) (st : State)
  | Abort (st : State)
  | Undefined.
Global Arguments Done {A} a st.
Global Arguments Abort {A} st.
Global Arguments Undefined {A}.

Definition M (A : Type) : Type := State → Outcome A.

Global Instance M_ret : MRet M := λ A a st, Done a st.

Global Instance M_bind : MBind M := λ A B k c st,
  match c st with
  | Done a st' => k a st'
  | Abort st' => Abort st'
  | Undefined => Undefined
  end.

(** The state in which a piece of code stopped, when it is known. *)
Definition final_state {A} (o : Outcome A) : option State :=
  match o with
  | Done _ st | Abort st => Some st
  | Undefined => None
  end.

(** *** Assertions *)

(** [PP_DCHECK(a)] is [assert(a)]: with assertions compiled in
    ([assertions = true], a debug build) a false condition aborts the
    process; with [NDEBUG] defined the macro expands to nothing. *)
Variable assertions : bool.

Definition PP_DCHECK (a : bool) : M unit := λ st,
  if assertions && negb a then Abort st else Done () st.

Definition PP_NOTREACHED : M unit := PP_DCHECK false.

(** *** The free store *)

(** [new Volume(instance_handle_, file_system_id, &message_sender_)]: the
    object is placed at an address that holds no live Volume. *)
Definition new_Volume (file_system_id : string) : M addr := λ st,
  let p := fresh (dom (objects st)) in
  Done p (mkState (volumes_ st)
                  (<[p := Volume_new file_system_id]> (objects st))
                  (posted st)).

(** [delete p]: deleting what is not a live object is undefined. *)
Definition delete_Volume (p : addr) : M unit := λ st,
  match objects st !! p with
  | Some _ =>
      Done () (mkState (volumes_ st) (delete p (objects st)) (posted st))
  | None => Undefined
  end.

(** *** The message sender *)

Definition PostMessage (message : Message) : M unit := λ st,
  Done () (mkState (volumes_ st) (objects st) (posted st ++ [message])).

(** [SafePostMessage] as one thread sees it: the lock it acquires is
    released before the method returns, and in between the message is
    posted. The interleaving of several threads is modelled further down,
    by [step]. *)
Definition SafePostMessage (message : Message) : M unit :=
  PostMessage message.

Definition Send (c : SenderCall) : M unit := SafePostMessage (message_of c).

Fixpoint Send_all (cs : list SenderCall) : M unit :=
  match cs with
  | [] => mret ()
  | c :: cs => Send c;; Send_all cs
  end.

(** *** Calling a method of a Volume through a pointer *)

(** [p->Init()]. Using a pointer to a dead object is undefined. *)
Definition Init (p : addr) : M bool := λ st,
  match objects st !! p with
  | Some v =>
      let '(ok, v') := Volume_Init v in
      Done ok (mkState (volumes_ st) (<[p := v']> (objects st)) (posted st))
  | None => Undefined
  end.

(** [p->method(...)] for the other methods: the object changes and the
    sender calls it made are carried out. *)
Definition invoke (p : addr) (method : Volume → Volume * list SenderCall)
    : M unit := λ st,
  match objects st !! p with
  | Some v =>
      let '(v', cs) := method v in
      Send_all cs
        (mkState (volumes_ st) (<[p := v']> (objects st)) (posted st))
  | None => Undefined
  end.

(** *** [std::map<std::string, Volume*> volumes_] *)

(** [volumes_.find(file_system_id)]: [Some p] is an iterator to the entry
    whose [second] is [p], [None] is [volumes_.end()]. *)
Definition volumes_find (file_system_id : string) : M (option addr) := λ st,
  Done (volumes_ st !! file_system_id) st.

(** [it->second]; dereferencing the end iterator is undefined. *)
Definition second (it : option addr) : M addr := λ st,
  match it with
  | Some p => Done p st
  | None => Undefined
  end.

(** [volumes_[file_system_id] = volume]. *)
Definition volumes_assign (file_system_id : string) (volume : addr)
    : M unit := λ st,
  Done () (mkState (<[file_system_id := volume]> (volumes_ st))
                   (objects st) (posted st)).

(** [volumes_.erase(file_system_id)]. *)
Definition volumes_erase (file_system_id : string) : M unit := λ st,
  Done () (mkState (delete file_system_id (volumes_ st))
                   (objects st) (posted st)).

Definition is_end (it : option addr) : bool :=
  match it with None => true | Some _ => false end.

(** ** [NaclArchiveInstance] *)

(** Reads the metadata for the volume of [file_system_id]; to be called
    once, before any other operation on that volume. *)
Definition ReadMetadata (var_dict : gmap string Var)
    (file_system_id request_id : string) : M unit :=
  it ← volumes_find file_system_id;
  PP_DCHECK (is_end it);;
  volume ← new_Volume file_system_id;
  ok ← Init volume;
  if negb ok then
    Send (SendFileSystemError file_system_id request_id
            ("Could not create a volume for: " +:+ file_system_id +:+ "."));;
    delete_Volume volume
  else
    volumes_assign file_system_id volume;;
    PP_DCHECK (is_string (Get var_dict kArchiveSize));;
    invoke volume
      (Volume_ReadMetadata request_id
         (GetInt64FromString var_dict kArchiveSize)).

Definition ReadChunkDone (var_dict : gmap string Var)
    (file_system_id request_id : string) : M unit :=
  PP_DCHECK (is_array_buffer (Get var_dict kChunkBuffer));;
  let array_buffer := array_buffer_of (Get var_dict kChunkBuffer) in
  PP_DCHECK (is_string (Get var_dict kOffset));;
  let read_offset := GetInt64FromString var_dict kOffset in
  it ← volumes_find file_system_id;
  if is_end it then mret ()
  else
    volume ← second it;
    invoke volume (Volume_ReadChunkDone request_id array_buffer read_offset).

Definition ReadChunkError (file_system_id request_id : string) : M unit :=
  it ← volumes_find file_system_id;
  if is_end it then mret ()
  else
    volume ← second it;
    invoke volume (Volume_ReadChunkError request_id).

Definition OpenFile (var_dict : gmap string Var)
    (file_system_id request_id : string) : M unit :=
  PP_DCHECK (is_string (Get var_dict kFilePath));;
  let file_path := AsString (Get var_dict kFilePath) in
  PP_DCHECK (is_string (Get var_dict kArchiveSize));;
  let archive_size := GetInt64FromString var_dict kArchiveSize in
  it ← volumes_find file_system_id;
  PP_DCHECK (negb (is_end it));;
  volume ← second it;
  invoke volume (Volume_OpenFile request_id file_path archive_size).

Definition CloseFile (var_dict : gmap string Var)
    (file_system_id request_id : string) : M unit :=
  PP_DCHECK (is_string (Get var_dict kOpenRequestId));;
  let open_request_id := AsString (Get var_dict kOpenRequestId) in
  it ← volumes_find file_system_id;
  PP_DCHECK (negb (is_end it));;
  volume ← second it;
  invoke volume (Volume_CloseFile request_id open_request_id).

Definition ReadFile (var_dict : gmap string Var)
    (file_system_id request_id : string) : M unit :=
  PP_DCHECK (is_string (Get var_dict kOpenRequestId));;
  PP_DCHECK (is_string (Get var_dict kOffset));;
  PP_DCHECK (is_int (Get var_dict kLength));;
  PP_DCHECK (bool_decide (AsInt (Get var_dict kLength) > 0));;
  it ← volumes_find file_system_id;
  PP_DCHECK (negb (is_end it));;
  volume ← second it;
  invoke volume (Volume_ReadFile request_id var_dict).

(** The case label that [operation] selects; [None] is the default case. *)
Definition switch (operation : Z) : option Operation :=
  List.find (λ o, code o =? operation) all_operations.

(** Handler for messages coming in from JavaScript. *)
Definition HandleMessage (var_message : Var) : M unit :=
  PP_DCHECK (is_dictionary var_message);;
  let var_dict := var_dict_of var_message in
  PP_DCHECK (is_int (Get var_dict kOperation));;
  let operation := AsInt (Get var_dict kOperation) in
  PP_DCHECK (is_string (Get var_dict kFileSystemId));;
  let file_system_id := AsString (Get var_dict kFileSystemId) in
  PP_DCHECK (is_string (Get var_dict kRequestId));;
  let request_id := AsString (Get var_dict kRequestId) in
  match switch operation with
  | Some READ_METADATA => ReadMetadata var_dict file_system_id request_id
  | Some READ_CHUNK_DONE => ReadChunkDone var_dict file_system_id request_id
  | Some READ_CHUNK_ERROR => ReadChunkError file_system_id request_id
  | Some OPEN_FILE => OpenFile var_dict file_system_id request_id
  | Some CLOSE_FILE => CloseFile var_dict file_system_id request_id
  | Some READ_FILE => ReadFile var_dict file_system_id request_id
  | Some CLOSE_VOLUME =>
      it ← volumes_find file_system_id;
      PP_DCHECK (negb (is_end it));;
      volume ← second it;
      delete_Volume volume;;
      volumes_erase file_system_id
  | None => PP_NOTREACHED
  end.

(** *** Well-formed requests *)

(** The fields an operation reads and the kind each must have, as the
    handlers assert them. *)
Definition required_fields (o : Operation) (d : gmap string Var) : bool :=
  match o with
  | READ_METADATA => is_string (Get d kArchiveSize)
  | READ_CHUNK_DONE =>
      is_array_buffer (Get d kChunkBuffer) && is_string (Get d kOffset)
  | READ_CHUNK_ERROR => true
  | OPEN_FILE => is_string (Get d kFilePath) && is_string (Get d kArchiveSize)
  | CLOSE_FILE => is_string (Get d kOpenRequestId)
  | READ_FILE =>
      is_string (Get d kOpenRequestId) && is_string (Get d kOffset)
      && is_int (Get d kLength)
  | CLOSE_VOLUME => true
  end.

(** [var_message] is a request for operation [o] on [file_system_id] with
    id [request_id]: a dictionary with these three fields and the fields
    the operation requires. The length of a read is constrained
    separately. *)
Definition is_request (var_message : Var) (o : Operation)
    (file_system_id request_id : string) : Prop :=
  is_dictionary var_message = true ∧
  Get (var_dict_of var_message) kOperation = VarInt (code o) ∧
  Get (var_dict_of var_message) kFileSystemId = VarString file_system_id ∧
  Get (var_dict_of var_message) kRequestId = VarString request_id ∧
  required_fields o (var_dict_of var_message) = true.

(** The operation code a message carries, as [HandleMessage] reads it. *)
Definition operation_of (var_message : Var) : Z :=
  AsInt (Get (var_dict_of var_message) kOperation).

(** Every pointer in [volumes_] points to a live Volume, and no two
    entries share one. *)
Definition registry_ok (st : State) : Prop :=
  (∀ id p, volumes_ st !! id = Some p → is_Some (objects st !! p)) ∧
  (∀ id1 id2 p,
     volumes_ st !! id1 = Some p → volumes_ st !! id2 = Some p → id1 = id2).

(** [keeps c]: when [c] returns, it has preserved [registry_ok]. *)
Definition keeps {A} (c : M A) : Prop :=
  ∀ st a st', registry_ok st → c st = Done a st' → registry_ok st'.

(** What a request would see if it were answered by an error and nothing
    else: one [FileSystemError] for it is posted, registry and Volumes are
    as before. *)
Definition answered_by_error (file_system_id request_id : string)
    (st : State) (o : Outcome unit) : Prop :=
  ∃ message,
    o = Done () (mkState (volumes_ st) (objects st)
                   (posted st
                    ++ [CreateFileSystemError file_system_id request_id
                          message])).

(** The instance as constructed: no volume, nothing posted. *)
Definition initial : State := mkState ∅ ∅ [].

(** Messages are handled one after the other; a process that aborted or
    went wrong handles no further message. *)
Fixpoint run (var_messages : list Var) : M unit :=
  match var_messages with
  | [] => mret ()
  | var_message :: rest => HandleMessage var_message;; run rest
  end.

(** *** Destroying the instance *)

(** The loop of [~NaclArchiveInstance], over the pointers of the entries in
    the order it visits them: [delete iterator->second] for each. *)
Fixpoint delete_all (volumes : list addr) : M unit :=
  match volumes with
  | [] => mret ()
  | volume :: rest => delete_Volume volume;; delete_all rest
  end.

(** [~NaclArchiveInstance]: every Volume that [volumes_] points to is
    deleted. The entries are taken in the order in which the map lists
    them. *)
Definition destructor : M unit := λ st,
  delete_all (map_to_list (volumes_ st)).*2 st.

(** *** What a handled message can have done *)

(** The method of [Volume] in which a request for a registered volume
    ends, with the arguments the handler reads from the message; none for
    the two operations that create and destroy the Volume. *)
Definition forwarded (o : Operation) (d : gmap string Var)
    (request_id : string) : option (Volume → Volume * list SenderCall) :=
  match o with
  | READ_CHUNK_DONE =>
      Some (Volume_ReadChunkDone request_id
              (array_buffer_of (Get d kChunkBuffer))
              (GetInt64FromString d kOffset))
  | READ_CHUNK_ERROR => Some (Volume_ReadChunkError request_id)
  | OPEN_FILE =>
      Some (Volume_OpenFile request_id (AsString (Get d kFilePath))
              (GetInt64FromString d kArchiveSize))
  | CLOSE_FILE =>
      Some (Volume_CloseFile request_id (AsString (Get d kOpenRequestId)))
  | READ_FILE => Some (Volume_ReadFile request_id d)
  | READ_METADATA | CLOSE_VOLUME => None
  end.

(** The state after a completed message against the state before it:
    nothing changed; the error of a failed [Init] was posted; a method of
    the Volume registered under the id of the message was called; a new
    Volume was registered under that id, at a fresh address; the Volume
    registered under that id was deleted and its entry erased. *)
Inductive Effect (file_system_id request_id : string) (st : State)
    : State → Prop :=
  | Unchanged : Effect file_system_id request_id st st
  | InitFailed :
      (assertions = true → volumes_ st !! file_system_id = None) →
      Effect file_system_id request_id st
        (mkState (volumes_ st) (objects st)
           (posted st
            ++ [CreateFileSystemError file_system_id request_id
                  ("Could not create a volume for: "
                   +:+ file_system_id +:+ ".")]))
  | Called p v v' messages :
      volumes_ st !! file_system_id = Some p →
      objects st !! p = Some v →
      Effect file_system_id request_id st
        (mkState (volumes_ st) (<[p := v']> (objects st))
           (posted st ++ messages))
  | Mounted v' messages :
      (assertions = true → volumes_ st !! file_system_id = None) →
      Effect file_system_id request_id st
        (mkState
           (<[file_system_id := fresh (dom (objects st))]> (volumes_ st))
           (<[fresh (dom (objects st)) := v']> (objects st))
           (posted st ++ messages))
  | Unmounted p v :
      volumes_ st !! file_system_id = Some p →
      objects st !! p = Some v →
      Effect file_system_id request_id st
        (mkState (delete file_system_id (volumes_ st))
           (delete p (objects st)) (posted st)).

(** What can be said of each way a handler ends: a completed message had
    one of the effects above; an abort happens in the state the message
    found or, in [ReadMetadata], after the new Volume was registered; a
    build with assertions goes wrong only if the registry was broken. *)
Definition outcome_ok (file_system_id request_id : string) (st : State)
    (o : Outcome unit) : Prop :=
  match o with
  | Done _ st' => Effect file_system_id request_id st st'
  | Abort st' =>
      assertions = true ∧
      (st' = st ∨
       ∃ v', volumes_ st !! file_system_id = None ∧
         st' = mkState
                 (<[file_system_id := fresh (dom (objects st))]> (volumes_ st))
                 (<[fresh (dom (objects st)) := v']> (objects st))
                 (posted st))
  | Undefined => registry_ok st → assertions = false
  end.

(** Every live Volume is pointed to by an entry of [volumes_]. *)
Definition no_leak (st : State) : Prop :=
  ∀ p, is_Some (objects st !! p) → ∃ id, volumes_ st !! id = Some p.

End Dispatcher.

(** ** [SafePostMessage] under interleaving *)

(** Any number of threads (the thread that handles messages, the worker of
    each Volume) call the methods of the one message sender of the
    instance. Each method is a call of [SafePostMessage], whose three
    statements a thread executes one at a time, interleaved with the
    statements of the others. [pp::Lock] is a mutual exclusion lock:
    [Acquire] returns only while no thread holds the lock. *)

Abbreviation thread := nat.

(** Where a thread is: [Outside] the methods of the sender; [Waiting] in
    [SafePostMessage] for [post_message_lock_.Acquire()] to return;
    [Holding] the lock, [instance_->PostMessage(message)] not yet called;
    [Posting], that is inside [PostMessage], the delivery in flight;
    [Releasing], [PostMessage] returned and
    [post_message_lock_.Release()] not yet. *)
Inductive Position :=
  | Outside
  | Waiting (message : Message)
  | Holding (message : Message)
  | Posting (message : Message)
  | Releasing.

Record Sender := mkSender {
  post_message_lock_ : option thread;
  positions : gmap thread Position;
  delivered : list Message;
}.

Definition position (s : Sender) (t : thread) : Position :=
  default Outside (positions s !! t).

Definition move (t : thread) (p : Position) (s : Sender)
    : gmap thread Position :=
  <[t := p]> (positions s).

(** What a thread can do next. *)
Inductive Event :=
  | Enter (t : thread) (c : SenderCall)
  | Acquire (t : thread)
  | BeginPost (t : thread)
  | EndPost (t : thread)
  | Release (t : thread).

(** One step of one thread; [None] when the thread is not at that
    statement, or is blocked in [Acquire]. *)
Definition step (e : Event) (s : Sender) : option Sender :=
  match e with
  | Enter t c =>
      match position s t with
      | Outside =>
          Some (mkSender (post_message_lock_ s)
                  (move t (Waiting (message_of c)) s) (delivered s))
      | _ => None
      end
  | Acquire t =>
      match position s t, post_message_lock_ s with
      | Waiting message, None =>
          Some (mkSender (Some t) (move t (Holding message) s) (delivered s))
      | _, _ => None
      end
  | BeginPost t =>
      match position s t with
      | Holding message =>
          Some (mkSender (post_message_lock_ s)
                  (move t (Posting message) s) (delivered s))
      | _ => None
      end
  | EndPost t =>
      match position s t with
      | Posting message =>
          Some (mkSender (post_message_lock_ s) (move t Releasing s)
                  (delivered s ++ [message]))
      | _ => None
      end
  | Release t =>
      match position s t with
      | Releasing => Some (mkSender None (move t Outside s) (delivered s))
      | _ => None
      end
  end.

Fixpoint steps (es : list Event) (s : Sender) : option Sender :=
  match es with
  | [] => Some s
  | e :: es => s' ← step e s; steps es s'
  end.

(** The sender as constructed: lock free, every thread outside. *)
Definition idle : Sender := mkSender None ∅ [].

(** The positions between [Acquire] and [Release]. *)
Definition in_section (p : Position) : bool :=
  match p with
  | Holding _ | Posting _ | Releasing => true
  | Outside | Waiting _ => false
  end.

(** The lock is held by exactly the thread inside the section. *)
Definition lock_inv (s : Sender) : Prop :=
  ∀ t, in_section (position s t) = true ↔ post_message_lock_ s = Some t.

(** The thread that takes a step. *)
Definition thread_of (e : Event) : thread :=
  match e with
  | Enter t _ | Acquire t | BeginPost t | EndPost t | Release t => t
  end.

(** The message a thread still has to deliver. *)
Definition message_in (p : Position) : option Message :=
  match p with
  | Waiting message | Holding message | Posting message => Some message
  | Outside | Releasing => None
  end.

(** The messages handed to the sender and not yet delivered. *)
Definition in_transit (s : Sender) : list Message :=
  omap (λ tp, message_in tp.2) (map_to_list (positions s)).

(** The messages handed to the sender by the calls in a run. *)
Definition handed_over (es : list Event) : list Message :=
  omap (λ e, match e with
             | Enter _ c => Some (message_of c)
             | _ => None
             end) es.

(** From where a thread is, the steps that take it out of
    [SafePostMessage] once it holds the lock or the lock is free. *)
Definition rest_of_call (t : thread) (p : Position) : list Event :=
  match p with
  | Outside => []
  | Waiting _ => [Acquire t; BeginPost t; EndPost t; Release t]
  | Holding _ => [BeginPost t; EndPost t; Release t]
  | Posting _ => [EndPost t; Release t]
  | Releasing => [Release t]
  end.

(** What the rest of a call comes to: the thread is outside, the lock is
    free, the other threads are where they were, and the message of the
    thread, if still to be delivered, has been delivered. *)
Definition call_finished (s : Sender) (t : thread) (s' : Sender) : Prop :=
  position s' t = Outside ∧
  post_message_lock_ s' = None ∧
  (∀ t', t' ≠ t → position s' t' = position s t') ∧
  delivered s' = delivered s ++ option_list (message_in (position s t)).

(** ** A test double *)

(** Concrete declarations on which the dispatcher can be run: sample keys
    and enumerator values, a decimal reader for [GetInt64FromString], and a
    [Volume] that records the calls it receives and answers each of them at
    once. Its [Init] fails for the file system id ["broken"]. *)
Module Sample.

Definition sample_code (o : Operation) : Z :=
  match o with
  | READ_METADATA => 0
  | READ_CHUNK_DONE => 3
  | READ_CHUNK_ERROR => 4
  | CLOSE_VOLUME => 5
  | OPEN_FILE => 6
  | CLOSE_FILE => 8
  | READ_FILE => 10
  end.

Lemma sample_code_inj o1 o2 : sample_code o1 = sample_code o2 → o1 = o2.
Proof. destruct o1, o2; simpl; congruence. Qed.

Fixpoint read_digits (acc : Z) (s : string) : Z :=
  match s with
  | String c rest =>
      let n := Z.of_N (Ascii.N_of_ascii c) in
      if (48 <=? n) && (n <=? 57) then read_digits (10 * acc + (n - 48)) rest
      else acc
  | EmptyString => acc
  end.

Definition sample_GetInt64FromString (d : gmap string Var) (key : string)
    : Z :=
  read_digits 0 (AsString (Get d key)).

#[export] Instance decls : RequestDecls := {|
  kOperation := "operation";
  kFileSystemId := "file_system_id";
  kRequestId := "request_id";
  kArchiveSize := "archive_size";
  kChunkBuffer := "chunk_buffer";
  kOffset := "offset";
  kFilePath := "file_path";
  kOpenRequestId := "open_request_id";
  kLength := "length";
  code := sample_code;
  code_inj := sample_code_inj;
  GetInt64FromString := sample_GetInt64FromString;
|}.

Inductive Call :=
  | CallInit
  | CallReadMetadata (request_id : string) (archive_size : Z)
  | CallReadChunkDone (request_id : string) (array_buffer : Var) (offset : Z)
  | CallReadChunkError (request_id : string)
  | CallOpenFile (request_id file_path : string) (archive_size : Z)
  | CallCloseFile (request_id open_request_id : string)
  | CallReadFile (request_id : string) (var_dict : gmap string Var).

Record Recorder := mkRecorder {
  name : string;
  calls : list Call;
}.

Definition record (c : Call) (v : Recorder) : Recorder :=
  mkRecorder (name v) (calls v ++ [c]).

#[export] Instance recorder : VolumeOps := {|
  Volume := Recorder;
  Volume_new file_system_id := mkRecorder file_system_id [];
  Volume_Init v := (negb (String.eqb (name v) "broken"), record CallInit v);
  Volume_ReadMetadata request_id archive_size v :=
    (record (CallReadMetadata request_id archive_size) v,
     [SendFileChunkRequest (name v) request_id 0 (Z.to_N archive_size)]);
  Volume_ReadChunkDone request_id array_buffer offset v :=
    (record (CallReadChunkDone request_id array_buffer offset) v,
     [SendReadMetadataDone (name v) request_id ∅]);
  Volume_ReadChunkError request_id v :=
    (record (CallReadChunkError request_id) v,
     [SendFileSystemError (name v) request_id "chunk"]);
  Volume_OpenFile request_id file_path archive_size v :=
    (record (CallOpenFile request_id file_path archive_size) v,
     [SendOpenFileDone (name v) request_id]);
  Volume_CloseFile request_id open_request_id v :=
    (record (CallCloseFile request_id open_request_id) v,
     [SendCloseFileDone (name v) request_id open_request_id]);
  Volume_ReadFile request_id var_dict v :=
    (record (CallReadFile request_id var_dict) v,
     [SendReadFileDone (name v) request_id (VarArrayBuffer []) false]);
|}.

(** A message with the three fields every request carries and the given
    further fields. *)
Definition request (o : Operation) (file_system_id request_id : string)
    (fields : list (string * Var)) : Var :=
  VarDictionary
    (list_to_map
       ((kOperation, VarInt (code o))
        :: (kFileSystemId, VarString file_system_id)
        :: (kRequestId, VarString request_id) :: fields)).

Definition read_metadata (file_system_id request_id size : string) : Var :=
  request READ_METADATA file_system_id request_id
    [(kArchiveSize, VarString size)].

(** The instance after the metadata of ["vol1"] was requested. *)
Definition mounted : State :=
  mkState {[ "vol1" := 1%positive ]}
    {[ 1%positive :=
         mkRecorder "vol1" [CallInit; CallReadMetadata "r1" 1000] ]}
    [CreateReadChunkRequest "vol1" "r1" 0 1000].

(** Requests used below. *)
Definition duplicate_metadata : Var := read_metadata "vol1" "r2" "1000".

Definition broken_metadata : Var := read_metadata "broken" "r2" "1000".

Definition second_metadata : Var := read_metadata "vol2" "r2" "2048".

Definition late_chunk : Var :=
  request READ_CHUNK_DONE "vol1" "c7"
    [(kChunkBuffer, VarArrayBuffer []); (kOffset, VarString "0")].

Definition open_unknown : Var :=
  request OPEN_FILE "nope" "r2"
    [(kFilePath, VarString "a.txt"); (kArchiveSize, VarString "1000")].

Definition close_unknown : Var := request CLOSE_VOLUME "nope" "r2" [].

Definition close_mounted : Var := request CLOSE_VOLUME "vol1" "r2" [].

Definition zero_read : Var :=
  request READ_FILE "vol1" "r3"
    [(kOpenRequestId, VarString "r2"); (kOffset, VarString "0");
     (kLength, VarInt 0)].

Definition unknown_operation : Var :=
  VarDictionary
    {[ kOperation := VarInt 99; kFileSystemId := VarString "vol1";
       kRequestId := VarString "r2" ]}.

(** Two threads at the sender: thread 0 is inside [PostMessage], thread 1
    waits for the lock. *)
Definition trace : list Event :=
  [Enter 0 (SendOpenFileDone "vol1" "r2"); Acquire 0;
   Enter 1 (SendFileChunkRequest "vol1" "c8" 0 512); BeginPost 0].

Definition busy : Sender :=
  mkSender (Some 0%nat)
    {[ 0%nat := Posting (CreateOpenFileDoneResponse "vol1" "r2");
       1%nat := Waiting (CreateReadChunkRequest "vol1" "c8" 0 512) ]}
    [].

(** The instance after ["vol1"] was closed again. *)
Definition unmounted : State :=
  mkState ∅ ∅ [CreateReadChunkRequest "vol1" "r1" 0 1000].

(** The instance after ["vol2"] was mounted next to ["vol1"]. *)
Definition both_mounted : State :=
  mkState {[ "vol1" := 1%positive; "vol2" := 2%positive ]}
    {[ 1%positive :=
         mkRecorder "vol1" [CallInit; CallReadMetadata "r1" 1000];
       2%positive :=
         mkRecorder "vol2" [CallInit; CallReadMetadata "r2" 2048] ]}
    [CreateReadChunkRequest "vol1" "r1" 0 1000;
     CreateReadChunkRequest "vol2" "r2" 0 2048].

(** Further requests and messages used below. *)
Definition close_second : Var := request CLOSE_VOLUME "vol2" "r4" [].

Definition open_mounted : Var :=
  request OPEN_FILE "vol1" "r2"
    [(kFilePath, VarString "a.txt"); (kArchiveSize, VarString "1000")].

Definition open_without_path : Var :=
  request OPEN_FILE "vol1" "r2" [(kArchiveSize, VarString "1000")].

Definition metadata_without_size : Var :=
  request READ_METADATA "vol2" "r2" [].

Definition not_a_dictionary : Var := VarString "operation".

End Sample.

(** * Properties of the dispatcher *)

Section Properties.
Context `{RequestDecls} `{VolumeOps}.
Implicit Types (st : State) (d : gmap string Var) (assertions : bool).

(** ** Equations of the primitive operations *)

Lemma DCHECK_bind {A} assertions (a : bool) (k : M A) st :
  (PP_DCHECK assertions a;; k) st
  = if assertions && negb a then Abort st else k st.
Proof. unfold PP_DCHECK, mbind, M_bind. by destruct (assertions && negb a). Qed.

Lemma DCHECK_pass {A} assertions (k : M A) st :
  (PP_DCHECK assertions true;; k) st = k st.
Proof. rewrite DCHECK_bind. by destruct assertions. Qed.

Lemma DCHECK_off {A} (a : bool) (k : M A) st :
  (PP_DCHECK false a;; k) st = k st.
Proof. by rewrite DCHECK_bind. Qed.

Lemma DCHECK_fail {A} (k : M A) st :
  (PP_DCHECK true false;; k) st = Abort st.
Proof. by rewrite DCHECK_bind. Qed.

Lemma Send_all_posts (cs : list SenderCall) st :
  Send_all cs st
  = Done () (mkState (volumes_ st) (objects st)
               (posted st ++ (message_of <$> cs))).
Proof.
  revert st. induction cs as [|c cs IH]; intros st; simpl.
  - rewrite app_nil_r. by destruct st.
  - unfold mbind, M_bind, Send, SafePostMessage, PostMessage.
    rewrite IH. simpl. by rewrite <- app_assoc.
Qed.

Lemma invoke_live p (method : Volume → Volume * list SenderCall) st v :
  objects st !! p = Some v →
  invoke p method st
  = Done () (mkState (volumes_ st) (<[p := (method v).1]> (objects st))
               (posted st ++ (message_of <$> (method v).2))).
Proof.
  intros Hp. unfold invoke. rewrite Hp.
  destruct (method v) as [v' cs]. by rewrite Send_all_posts.
Qed.

(** ** The switch *)

Lemma switch_code o : switch (code o) = Some o.
Proof.
  unfold switch.
  destruct o; simpl;
    repeat (case Z.eqb_spec;
            [ intros E; apply code_inj in E; discriminate E | intros _ ]);
    by rewrite Z.eqb_refl.
Qed.

Lemma switch_Some n o : switch n = Some o → code o = n.
Proof.
  unfold switch. intros E. apply List.find_some in E as [_ E].
  by apply Z.eqb_eq.
Qed.

Lemma switch_default n : (∀ o, code o ≠ n) → switch n = None.
Proof.
  intros Hn. destruct (switch n) as [o|] eqn:E; [|done].
  apply switch_Some in E. by destruct (Hn o).
Qed.

(** Enters the case of a well-formed request: the four assertions at the
    head of [HandleMessage] pass and the switch selects the case. *)
Ltac enter_case Hreq :=
  let Hd := fresh "Hdict" in
  let Hop := fresh "Hop" in
  let Hfs := fresh "Hfs" in
  let Hrid := fresh "Hrid" in
  let Hfields := fresh "Hfields" in
  destruct Hreq as (Hd & Hop & Hfs & Hrid & Hfields);
  unfold HandleMessage;
  rewrite Hd, Hop, Hfs, Hrid; simpl is_int; simpl is_string; simpl AsInt;
  simpl AsString;
  rewrite !DCHECK_pass, switch_code.

(** ** Events for a volume that is gone *)

Lemma chunk_event_returns_at_end assertions var_message o file_system_id
    request_id st :
  o = READ_CHUNK_DONE ∨ o = READ_CHUNK_ERROR →
  is_request var_message o file_system_id request_id →
  volumes_ st !! file_system_id = None →
  HandleMessage assertions var_message st = Done () st.
Proof.
  intros Ho Hreq Hgone.
  destruct Ho as [-> | ->]; enter_case Hreq.
  - simpl in Hfields. apply andb_prop in Hfields as [Hbuf Hoff].
    unfold ReadChunkDone. rewrite Hbuf, Hoff, !DCHECK_pass.
    unfold mbind, M_bind, volumes_find. by rewrite Hgone.
  - unfold ReadChunkError, mbind, M_bind, volumes_find. by rewrite Hgone.
Qed.

(** C1. A ChunkDone or ChunkError event whose file system id names no live
    Volume (it was unmounted first) is ignored: the handler returns in the
    very state it was called in, so nothing is posted, no error is
    reported, and registry and Volumes are untouched. *)
Theorem chunk_event_without_volume_ignored assertions var_message o
    file_system_id request_id st :
  o = READ_CHUNK_DONE ∨ o = READ_CHUNK_ERROR →
  is_request var_message o file_system_id request_id →
  volumes_ st !! file_system_id = None →
  HandleMessage assertions var_message st = Done () st.
Proof. apply chunk_event_returns_at_end. Qed.

(** C10. A message whose operation code is none of the seven case labels
    reaches the default case: whether [HandleMessage] returns or stops at
    an assertion, it does so in the state it was called in, with no
    registry or Volume change and nothing posted. *)
Theorem unknown_operation_changes_nothing assertions var_message st :
  (∀ o, code o ≠ operation_of var_message) →
  final_state (HandleMessage assertions var_message st) = Some st.
Proof.
  intros Hop. apply switch_default in Hop. unfold operation_of in Hop.
  unfold HandleMessage. rewrite !DCHECK_bind, Hop.
  unfold PP_NOTREACHED, PP_DCHECK.
  repeat case_match; done.
Qed.

(** ** Mounting a volume *)

Lemma fresh_object_free st : objects st !! fresh (dom (objects st)) = None.
Proof. apply not_elem_of_dom, is_fresh. Qed.

(** [ReadMetadata] once its first assertion has passed: the Volume is
    created at a fresh address and initialised; the rest depends on what
    [Init] reports. *)
Lemma ReadMetadata_created assertions d file_system_id request_id st :
  assertions = false ∨ volumes_ st !! file_system_id = None →
  let p := fresh (dom (objects st)) in
  let init := Volume_Init (Volume_new file_system_id) in
  ReadMetadata assertions d file_system_id request_id st
  = if init.1 then
      (PP_DCHECK assertions (is_string (Get d kArchiveSize));;
       invoke p (Volume_ReadMetadata request_id
                   (GetInt64FromString d kArchiveSize)))
        (mkState (<[file_system_id := p]> (volumes_ st))
                 (<[p := init.2]> (objects st)) (posted st))
    else
      Done () (mkState (volumes_ st) (objects st)
                 (posted st
                  ++ [CreateFileSystemError file_system_id request_id
                        ("Could not create a volume for: "
                         +:+ file_system_id +:+ ".")])).
Proof.
  intros Hpass p init. unfold ReadMetadata.
  unfold mbind at 1, M_bind at 1, volumes_find.
  assert (Hcheck : assertions && negb (is_end (volumes_ st !! file_system_id))
                   = false).
  { destruct Hpass as [-> | ->]; [done | apply andb_false_r]. }
  rewrite DCHECK_bind, Hcheck.
  unfold mbind at 1, M_bind at 1, new_Volume. fold p.
  unfold mbind at 1, M_bind at 1, Init. simpl objects.
  rewrite lookup_insert_eq. fold init. destruct init as [ok v1]. simpl.
  rewrite insert_insert_eq. destruct ok; simpl.
  - done.
  - unfold mbind, M_bind, Send, SafePostMessage, PostMessage, delete_Volume.
    simpl. rewrite lookup_insert_eq, delete_insert_eq.
    rewrite delete_id by apply fresh_object_free. done.
Qed.

(** C9. When [Init] of the Volume created for a ReadMetadata request
    reports failure, the handler returns after posting exactly one
    message, a FileSystemError carrying the file system id and the request
    id of the request; the Volume it created is deleted again (the store
    of live Volumes is as before, the address it used is free) and the
    registry is unchanged, so no entry was added for the id. *)
Theorem init_failure_reported_once assertions var_message file_system_id
    request_id st :
  is_request var_message READ_METADATA file_system_id request_id →
  assertions = false ∨ volumes_ st !! file_system_id = None →
  (Volume_Init (Volume_new file_system_id)).1 = false →
  ∃ st',
    HandleMessage assertions var_message st = Done () st' ∧
    posted st'
    = posted st
      ++ [CreateFileSystemError file_system_id request_id
            ("Could not create a volume for: " +:+ file_system_id +:+ ".")] ∧
    objects st' = objects st ∧
    objects st' !! fresh (dom (objects st)) = None ∧
    volumes_ st' = volumes_ st.
Proof.
  intros Hreq Hpass Hinit. enter_case Hreq.
  rewrite ReadMetadata_created by done. rewrite Hinit.
  eexists. split; [done|]. simpl. repeat split.
  apply fresh_object_free.
Qed.

(** A key bound in a map occurs exactly once in the listing of the map. *)
Lemma filter_key_absent {A} (l : list (string * A)) k :
  k ∉ l.*1 → filter (λ e, e.1 = k) l = [].
Proof.
  induction l as [|[k' v'] l IH]; intros Hk; [done|].
  rewrite fmap_cons in Hk. apply not_elem_of_cons in Hk as [Hne Hk].
  rewrite filter_cons. simpl. rewrite decide_False by done. by apply IH.
Qed.

Lemma filter_key_once {A} (l : list (string * A)) k v :
  NoDup l.*1 → (k, v) ∈ l → length (filter (λ e, e.1 = k) l) = 1%nat.
Proof.
  induction l as [|[k' v'] l IH]; intros Hnd Hin.
  - by apply elem_of_nil in Hin.
  - rewrite fmap_cons in Hnd. apply NoDup_cons in Hnd as [Hk' Hnd].
    rewrite filter_cons. simpl in *.
    apply elem_of_cons in Hin as [E | Hin].
    + injection E as <- <-. rewrite decide_True by done.
      by rewrite filter_key_absent.
    + rewrite decide_False; [by apply IH|].
      intros ->. apply Hk'. apply list_elem_of_fmap. by exists (k, v).
Qed.

(** The entries of [volumes_] listed under a file system id. *)
Lemma registered_once st file_system_id p :
  volumes_ st !! file_system_id = Some p →
  length (filter (λ e, e.1 = file_system_id) (map_to_list (volumes_ st)))
  = 1%nat.
Proof.
  intros Hp. apply filter_key_once with p.
  - apply NoDup_fst_map_to_list.
  - by apply elem_of_map_to_list.
Qed.

(** C7. A ReadMetadata request for an id that is not registered, whose
    Volume initialises, returns with the id registered: [volumes_] maps the
    id to the new Volume and lists exactly one entry under it; the new
    Volume is the one on which [Volume::ReadMetadata] was called with the
    request id and the archive size read from the request, and what that
    call sent has been posted. In no state does [volumes_] list an id
    twice. *)
Theorem read_metadata_registers_volume assertions var_message file_system_id
    request_id st v1 :
  is_request var_message READ_METADATA file_system_id request_id →
  volumes_ st !! file_system_id = None →
  Volume_Init (Volume_new file_system_id) = (true, v1) →
  let p := fresh (dom (objects st)) in
  let called :=
    Volume_ReadMetadata request_id
      (GetInt64FromString (var_dict_of var_message) kArchiveSize) v1 in
  ∃ st',
    HandleMessage assertions var_message st = Done () st' ∧
    volumes_ st' = <[file_system_id := p]> (volumes_ st) ∧
    volumes_ st' !! file_system_id = Some p ∧
    length (filter (λ e, e.1 = file_system_id) (map_to_list (volumes_ st')))
    = 1%nat ∧
    (∀ st0 : State, NoDup (map_to_list (volumes_ st0)).*1) ∧
    objects st' = <[p := called.1]> (objects st) ∧
    objects st' !! p = Some called.1 ∧
    posted st' = posted st ++ (message_of <$> called.2).
Proof.
  intros Hreq Hnew Hinit p called. enter_case Hreq.
  rewrite ReadMetadata_created by auto. rewrite Hinit. simpl.
  simpl in Hfields. rewrite Hfields, DCHECK_pass.
  erewrite invoke_live by apply lookup_insert_eq. simpl.
  rewrite insert_insert_eq. fold p called.
  eexists. split; [done|]. simpl.
  assert (Hp : <[file_system_id := p]> (volumes_ st) !! file_system_id
               = Some p) by apply lookup_insert_eq.
  repeat split; try done.
  - exact (registered_once (mkState _ (objects st) (posted st)) _ _ Hp).
  - intros st0. apply NoDup_fst_map_to_list.
  - apply lookup_insert_eq.
Qed.

(** ** Unmounting a volume *)

Lemma CloseVolume_registered assertions var_message file_system_id request_id
    st p :
  is_request var_message CLOSE_VOLUME file_system_id request_id →
  volumes_ st !! file_system_id = Some p →
  is_Some (objects st !! p) →
  HandleMessage assertions var_message st
  = Done () (mkState (delete file_system_id (volumes_ st))
               (delete p (objects st)) (posted st)).
Proof.
  intros Hreq Hp [v Hv]. enter_case Hreq.
  unfold mbind at 1, M_bind at 1, volumes_find. rewrite Hp. simpl.
  rewrite DCHECK_pass.
  unfold mbind, M_bind, second, delete_Volume, volumes_erase.
  by rewrite Hv.
Qed.

(** The race the handlers of chunk events provide for: a volume is closed
    while a chunk it asked for is under way. Handling the late chunk after
    the CloseVolume request leaves what the CloseVolume request left. *)
Lemma chunk_event_after_close assertions close var_message o file_system_id
    close_id request_id st :
  o = READ_CHUNK_DONE ∨ o = READ_CHUNK_ERROR →
  is_request close CLOSE_VOLUME file_system_id close_id →
  is_request var_message o file_system_id request_id →
  registry_ok st →
  is_Some (volumes_ st !! file_system_id) →
  run assertions [close; var_message] st = run assertions [close] st.
Proof.
  intros Ho Hclose Hreq [Hlive _] [p Hp]. simpl.
  unfold mbind, M_bind.
  erewrite CloseVolume_registered by eauto.
  erewrite chunk_event_returns_at_end; eauto.
  simpl. apply lookup_delete_eq.
Qed.

(** C8. A CloseVolume request for a registered id returns after erasing
    the entry and deleting the Volume it pointed to; the list of posted
    messages is the one before the request: neither a reply nor an error
    is sent. *)
Theorem close_volume_posts_nothing assertions var_message file_system_id
    request_id st p :
  is_request var_message CLOSE_VOLUME file_system_id request_id →
  registry_ok st →
  volumes_ st !! file_system_id = Some p →
  ∃ st',
    HandleMessage assertions var_message st = Done () st' ∧
    volumes_ st' = delete file_system_id (volumes_ st) ∧
    volumes_ st' !! file_system_id = None ∧
    objects st' = delete p (objects st) ∧
    objects st' !! p = None ∧
    posted st' = posted st.
Proof.
  intros Hreq [Hlive _] Hp.
  erewrite CloseVolume_registered by eauto.
  eexists. split; [done|]. simpl.
  repeat split; apply lookup_delete_eq.
Qed.

(** ** Requests that break the caller's contract *)

(** The assertion [it != volumes_.end()] of the four cases that need a
    registered volume. *)
Lemma unknown_volume_stops_at_assertion var_message o file_system_id
    request_id st :
  o = OPEN_FILE ∨ o = CLOSE_FILE ∨ o = READ_FILE ∨ o = CLOSE_VOLUME →
  is_request var_message o file_system_id request_id →
  volumes_ st !! file_system_id = None →
  HandleMessage true var_message st = Abort st.
Proof.
  intros Ho Hreq Hgone.
  destruct Ho as [-> | [-> | [-> | ->]]]; enter_case Hreq;
    unfold OpenFile, CloseFile, ReadFile;
    rewrite ?DCHECK_bind;
    repeat (case_match; [done|]);
    unfold mbind at 1, M_bind at 1, volumes_find; rewrite Hgone;
    apply DCHECK_fail.
Qed.

(** X20. Without assertions the same requests go on to dereference the end
    iterator of [volumes_]: a file request or a CloseVolume request for an
    id that is not registered is undefined behaviour. *)
Lemma unknown_volume_unchecked var_message o file_system_id request_id st :
  o = OPEN_FILE ∨ o = CLOSE_FILE ∨ o = READ_FILE ∨ o = CLOSE_VOLUME →
  is_request var_message o file_system_id request_id →
  volumes_ st !! file_system_id = None →
  HandleMessage false var_message st = Undefined.
Proof.
  intros Ho Hreq Hgone.
  destruct Ho as [-> | [-> | [-> | ->]]]; enter_case Hreq;
    unfold OpenFile, CloseFile, ReadFile;
    rewrite ?DCHECK_off;
    unfold mbind at 1, M_bind at 1, volumes_find; rewrite Hgone;
    by rewrite DCHECK_off.
Qed.

(** C3, as the code has it. An OpenFile, CloseFile or ReadFile request for
    an id that is not registered violates the handler's assertion that the
    volume exists: with assertions compiled in, the process aborts there,
    in the state the request found, and no error has been posted for the
    request. *)
Theorem file_request_on_unknown_volume_aborts var_message o file_system_id
    request_id st :
  o = OPEN_FILE ∨ o = CLOSE_FILE ∨ o = READ_FILE →
  is_request var_message o file_system_id request_id →
  volumes_ st !! file_system_id = None →
  HandleMessage true var_message st = Abort st.
Proof.
  intros Ho. apply unknown_volume_stops_at_assertion. tauto.
Qed.

(** C4, as the code has it. A CloseVolume request for an id that is not
    registered violates the assertion that the volume exists: with
    assertions compiled in, the process aborts in the state the request
    found, registry untouched and nothing posted. For a registered id the
    entry is erased and the Volume deleted, in either build. *)
Theorem close_volume_absent_aborts_present_released var_message
    file_system_id request_id st :
  is_request var_message CLOSE_VOLUME file_system_id request_id →
  registry_ok st →
  match volumes_ st !! file_system_id with
  | None => HandleMessage true var_message st = Abort st
  | Some p =>
      ∀ assertions, ∃ st',
        HandleMessage assertions var_message st = Done () st' ∧
        volumes_ st' !! file_system_id = None ∧
        (∀ id, id ≠ file_system_id → volumes_ st' !! id = volumes_ st !! id) ∧
        objects st' !! p = None ∧
        (∀ q, q ≠ p → objects st' !! q = objects st !! q)
  end.
Proof.
  intros Hreq [Hlive _].
  destruct (volumes_ st !! file_system_id) as [p|] eqn:Hp.
  - intros assertions. erewrite CloseVolume_registered by eauto.
    eexists. split; [done|]. simpl.
    repeat split; intros; by rewrite ?lookup_delete_eq, ?lookup_delete_ne.
  - eapply unknown_volume_stops_at_assertion; eauto.
Qed.

(** C2, as the code has it. A ReadMetadata request for an id that is
    already registered violates the handler's first assertion: with
    assertions compiled in, the process aborts there; the existing Volume
    and the registry are as the request found them and no error has been
    posted for the request. *)
Theorem duplicate_read_metadata_aborts var_message file_system_id request_id
    st :
  is_request var_message READ_METADATA file_system_id request_id →
  is_Some (volumes_ st !! file_system_id) →
  HandleMessage true var_message st = Abort st.
Proof.
  intros Hreq [p Hp]. enter_case Hreq.
  unfold ReadMetadata, mbind at 1, M_bind at 1, volumes_find.
  rewrite Hp. apply DCHECK_fail.
Qed.

(** Without assertions a duplicate whose Volume initialises replaces the
    registered Volume: the id now points to the new object, and the old
    one stays on the free store with no entry pointing to it. *)
Lemma duplicate_read_metadata_unchecked var_message file_system_id request_id
    st p0 v0 v1 :
  is_request var_message READ_METADATA file_system_id request_id →
  volumes_ st !! file_system_id = Some p0 →
  objects st !! p0 = Some v0 →
  Volume_Init (Volume_new file_system_id) = (true, v1) →
  let p := fresh (dom (objects st)) in
  ∃ st',
    HandleMessage false var_message st = Done () st' ∧
    p ≠ p0 ∧
    volumes_ st' !! file_system_id = Some p ∧
    objects st' !! p0 = Some v0.
Proof.
  intros Hreq Hp0 Hv0 Hinit p. enter_case Hreq.
  rewrite ReadMetadata_created by auto. rewrite Hinit. simpl.
  rewrite DCHECK_off.
  erewrite invoke_live by apply lookup_insert_eq. simpl.
  rewrite insert_insert_eq. fold p.
  assert (Hne : p ≠ p0).
  { intros E. pose proof (fresh_object_free st) as Hf. fold p in Hf.
    rewrite E, Hv0 in Hf. discriminate Hf. }
  eexists. split; [done|]. simpl. split; [done|]. split.
  - apply lookup_insert_eq.
  - by rewrite lookup_insert_ne.
Qed.

(** C5, as the code has it. The length of a ReadFile request is checked
    by an assertion only: with assertions compiled in, a request whose
    length is not positive aborts the process in the state the request
    found, with no error posted and nothing forwarded to the Volume, so a
    request that the handler completes has a positive length. *)
Theorem read_file_length_asserted var_message file_system_id request_id st :
  is_request var_message READ_FILE file_system_id request_id →
  let length := AsInt (Get (var_dict_of var_message) kLength) in
  (length ≤ 0 → HandleMessage true var_message st = Abort st) ∧
  (∀ st', HandleMessage true var_message st = Done () st' → length > 0).
Proof.
  intros Hreq length.
  assert (Hneg : length ≤ 0 → HandleMessage true var_message st = Abort st).
  { intros Hlen. enter_case Hreq. unfold ReadFile.
    simpl in Hfields.
    apply andb_prop in Hfields as [Hfields Hint].
    apply andb_prop in Hfields as [Hopen Hoff].
    rewrite Hopen, Hoff, Hint, !DCHECK_pass. fold length.
    rewrite bool_decide_false by lia. apply DCHECK_fail. }
  split; [done|]. intros st' Hdone.
  destruct (decide (length ≤ 0)) as [Hlen|]; [|lia].
  rewrite Hneg in Hdone by done. discriminate Hdone.
Qed.

(** Without assertions the length is not looked at: the request goes to
    [Volume::ReadFile] whatever it is. *)
Lemma read_file_length_unchecked var_message file_system_id request_id st p v :
  is_request var_message READ_FILE file_system_id request_id →
  volumes_ st !! file_system_id = Some p →
  objects st !! p = Some v →
  let called := Volume_ReadFile request_id (var_dict_of var_message) v in
  HandleMessage false var_message st
  = Done () (mkState (volumes_ st) (<[p := called.1]> (objects st))
               (posted st ++ (message_of <$> called.2))).
Proof.
  intros Hreq Hp Hv called. enter_case Hreq. unfold ReadFile.
  rewrite !DCHECK_off.
  unfold mbind at 1, M_bind at 1, volumes_find. rewrite Hp, DCHECK_off.
  unfold mbind at 1, M_bind at 1, second.
  by erewrite invoke_live.
Qed.

(** ** The registry invariant *)

Lemma keeps_bind {A B} (c : M A) (k : A → M B) :
  keeps c → (∀ a, keeps (k a)) → keeps (c ≫= k).
Proof.
  intros Hc Hk st b st' Hok. unfold mbind, M_bind.
  destruct (c st) as [a st1| |] eqn:E; try discriminate.
  intros Hdone. eapply Hk; [|exact Hdone]. eapply Hc; eauto.
Qed.

Lemma keeps_ret {A} (a : A) : keeps (mret a).
Proof. intros st a' st' Hok E. unfold mret, M_ret in E. by simplify_eq. Qed.

Lemma keeps_DCHECK assertions a : keeps (PP_DCHECK assertions a).
Proof.
  intros st u st' Hok. unfold PP_DCHECK.
  destruct (assertions && negb a); [done|]. intros E. by simplify_eq.
Qed.

Lemma keeps_find file_system_id : keeps (volumes_find file_system_id).
Proof.
  intros st a st' Hok E. unfold volumes_find in E. by simplify_eq.
Qed.

Lemma keeps_second it : keeps (second it).
Proof.
  intros st a st' Hok. unfold second. destruct it; [|done].
  intros E. by simplify_eq.
Qed.

Lemma registry_ok_update st p v posted' :
  registry_ok st →
  registry_ok (mkState (volumes_ st) (<[p := v]> (objects st)) posted').
Proof.
  intros [Hlive Hinj]. split; simpl; [|done].
  intros id q Hq. apply lookup_insert_is_Some'. right. eauto.
Qed.

Lemma keeps_invoke p (method : Volume → Volume * list SenderCall) :
  keeps (invoke p method).
Proof.
  intros st u st' Hok. unfold invoke.
  destruct (objects st !! p) as [v|]; [|done].
  destruct (method v) as [v' cs]. rewrite Send_all_posts. simpl.
  intros E. simplify_eq. by apply registry_ok_update.
Qed.

Lemma registry_ok_mount st file_system_id v posted' :
  registry_ok st →
  let p := fresh (dom (objects st)) in
  registry_ok (mkState (<[file_system_id := p]> (volumes_ st))
                 (<[p := v]> (objects st)) posted').
Proof.
  intros [Hlive Hinj] p.
  assert (Hfree : ∀ id, volumes_ st !! id ≠ Some p).
  { intros id Hid. apply Hlive in Hid as [w Hw].
    pose proof (fresh_object_free st) as Hf. fold p in Hf. congruence. }
  split; simpl.
  - intros id q [[_ <-] | [_ Hq]]%lookup_insert_Some;
      apply lookup_insert_is_Some'; eauto.
  - intros id1 id2 q [[<- <-] | [Hne1 Hq1]]%lookup_insert_Some
                       [[<- E] | [Hne2 Hq2]]%lookup_insert_Some;
      try done.
    + by destruct (Hfree id2).
    + subst q. by destruct (Hfree id1).
    + eauto.
Qed.

Lemma registry_ok_unmount st file_system_id p :
  registry_ok st →
  volumes_ st !! file_system_id = Some p →
  registry_ok (mkState (delete file_system_id (volumes_ st))
                 (delete p (objects st)) (posted st)).
Proof.
  intros [Hlive Hinj] Hp. split; simpl.
  - intros id q [Hne Hq]%lookup_delete_Some.
    rewrite lookup_delete_ne; [eauto|].
    intros ->. apply Hne. eauto.
  - intros id1 id2 q [_ Hq1]%lookup_delete_Some [_ Hq2]%lookup_delete_Some.
    eauto.
Qed.

Lemma keeps_ReadMetadata assertions d file_system_id request_id :
  keeps (ReadMetadata assertions d file_system_id request_id).
Proof.
  intros st u st' Hok.
  destruct (decide (assertions = false ∨ volumes_ st !! file_system_id = None))
    as [Hpass | Hfail].
  - rewrite ReadMetadata_created by done.
    destruct (Volume_Init (Volume_new file_system_id)) as [[] v1]; simpl.
    + intros Hdone.
      eapply (keeps_bind (PP_DCHECK assertions _) (λ _, invoke _ _));
        [ apply keeps_DCHECK | intros; apply keeps_invoke | | exact Hdone ].
      by apply registry_ok_mount.
    + intros E. simplify_eq. by destruct Hok.
  - destruct assertions; [|tauto].
    destruct (volumes_ st !! file_system_id) as [p0|] eqn:Hp0; [|tauto].
    unfold ReadMetadata, mbind at 1, M_bind at 1, volumes_find.
    rewrite Hp0, DCHECK_fail. done.
Qed.

Lemma keeps_CloseVolume assertions file_system_id :
  keeps (it ← volumes_find file_system_id;
         PP_DCHECK assertions (negb (is_end it));;
         volume ← second it;
         delete_Volume volume;;
         volumes_erase file_system_id).
Proof.
  intros st u st' Hok.
  unfold mbind at 1, M_bind at 1, volumes_find.
  rewrite DCHECK_bind.
  destruct (volumes_ st !! file_system_id) as [p|] eqn:Hp; simpl.
  - rewrite andb_false_r.
    unfold mbind, M_bind, second, delete_Volume, volumes_erase.
    destruct (objects st !! p); [|done].
    intros E. simplify_eq. by apply registry_ok_unmount.
  - destruct assertions; done.
Qed.

Create HintDb keeps.
Hint Resolve keeps_ret keeps_DCHECK keeps_find keeps_second keeps_invoke
  keeps_ReadMetadata keeps_CloseVolume : keeps.

Ltac keeps_step :=
  first [ solve [eauto with keeps] | apply keeps_bind; [|intros ?]
        | case_match ].

(** Every message that [HandleMessage] completes leaves the registry
    pointing to live Volumes, one per id. *)
Lemma HandleMessage_keeps assertions var_message :
  keeps (HandleMessage assertions var_message).
Proof.
  unfold HandleMessage, ReadChunkDone, ReadChunkError, OpenFile, CloseFile,
    ReadFile, PP_NOTREACHED.
  repeat keeps_step.
Qed.

Lemma run_keeps assertions var_messages :
  keeps (run assertions var_messages).
Proof.
  induction var_messages as [|m ms IH]; simpl.
  - apply keeps_ret.
  - apply keeps_bind; [apply HandleMessage_keeps | done].
Qed.

Lemma initial_ok : registry_ok initial.
Proof. split; intros *; simpl; by rewrite lookup_empty. Qed.

(** Whatever messages arrive, a state the instance reaches satisfies the
    invariant. *)
Lemma reachable_ok assertions var_messages st :
  run assertions var_messages initial = Done () st → registry_ok st.
Proof. apply run_keeps, initial_ok. Qed.

(** ** All the ways a message can end *)

(** The three shapes the handlers other than [ReadMetadata] have after
    their checks of the fields. *)
Lemma guarded_call_eq assertions file_system_id
    (method : Volume → Volume * list SenderCall) st :
  (it ← volumes_find file_system_id;
   PP_DCHECK assertions (negb (is_end it));;
   volume ← second it;
   invoke volume method) st
  = match volumes_ st !! file_system_id with
    | Some p => invoke p method st
    | None => if assertions then Abort st else Undefined
    end.
Proof.
  unfold mbind at 1, M_bind at 1, volumes_find. rewrite DCHECK_bind.
  destruct (volumes_ st !! file_system_id) as [p|]; simpl.
  - by rewrite andb_false_r.
  - by destruct assertions.
Qed.

Lemma chunk_call_eq file_system_id
    (method : Volume → Volume * list SenderCall) st :
  (it ← volumes_find file_system_id;
   if is_end it then mret ()
   else volume ← second it; invoke volume method) st
  = match volumes_ st !! file_system_id with
    | Some p => invoke p method st
    | None => Done () st
    end.
Proof.
  unfold mbind at 1, M_bind at 1, volumes_find.
  by destruct (volumes_ st !! file_system_id).
Qed.

Lemma close_volume_eq assertions file_system_id st :
  (it ← volumes_find file_system_id;
   PP_DCHECK assertions (negb (is_end it));;
   volume ← second it;
   delete_Volume volume;;
   volumes_erase file_system_id) st
  = match volumes_ st !! file_system_id with
    | Some p =>
        match objects st !! p with
        | Some _ =>
            Done () (mkState (delete file_system_id (volumes_ st))
                       (delete p (objects st)) (posted st))
        | None => Undefined
        end
    | None => if assertions then Abort st else Undefined
    end.
Proof.
  unfold mbind at 1, M_bind at 1, volumes_find. rewrite DCHECK_bind.
  destruct (volumes_ st !! file_system_id) as [p|]; simpl.
  - rewrite andb_false_r.
    unfold mbind, M_bind, second, delete_Volume, volumes_erase.
    by destruct (objects st !! p).
  - by destruct assertions.
Qed.

Lemma invoke_outcome assertions file_system_id request_id p
    (method : Volume → Volume * list SenderCall) st :
  volumes_ st !! file_system_id = Some p →
  outcome_ok assertions file_system_id request_id st (invoke p method st).
Proof.
  intros Hp. destruct (objects st !! p) as [v|] eqn:Hv.
  - erewrite invoke_live by done. simpl. by eapply Called.
  - unfold invoke. rewrite Hv. simpl. intros [Hlive _].
    apply Hlive in Hp as [v Hv']. congruence.
Qed.

Lemma guarded_call_outcome assertions file_system_id request_id
    (method : Volume → Volume * list SenderCall) st :
  outcome_ok assertions file_system_id request_id st
    ((it ← volumes_find file_system_id;
      PP_DCHECK assertions (negb (is_end it));;
      volume ← second it;
      invoke volume method) st).
Proof.
  rewrite guarded_call_eq.
  destruct (volumes_ st !! file_system_id) as [p|] eqn:Hp.
  - by apply invoke_outcome.
  - destruct assertions; simpl; auto.
Qed.

Lemma chunk_call_outcome assertions file_system_id request_id
    (method : Volume → Volume * list SenderCall) st :
  outcome_ok assertions file_system_id request_id st
    ((it ← volumes_find file_system_id;
      if is_end it then mret ()
      else volume ← second it; invoke volume method) st).
Proof.
  rewrite chunk_call_eq.
  destruct (volumes_ st !! file_system_id) as [p|] eqn:Hp.
  - by apply invoke_outcome.
  - apply Unchanged.
Qed.

Lemma close_volume_outcome assertions file_system_id request_id st :
  outcome_ok assertions file_system_id request_id st
    ((it ← volumes_find file_system_id;
      PP_DCHECK assertions (negb (is_end it));;
      volume ← second it;
      delete_Volume volume;;
      volumes_erase file_system_id) st).
Proof.
  rewrite close_volume_eq.
  destruct (volumes_ st !! file_system_id) as [p|] eqn:Hp.
  - destruct (objects st !! p) as [v|] eqn:Hv; simpl.
    + by eapply Unmounted.
    + intros [Hlive _]. apply Hlive in Hp as [v Hv']. congruence.
  - destruct assertions; simpl; auto.
Qed.

Lemma DCHECK_outcome assertions file_system_id request_id (a : bool)
    (k : M unit) st :
  outcome_ok assertions file_system_id request_id st (k st) →
  outcome_ok assertions file_system_id request_id st
    ((PP_DCHECK assertions a;; k) st).
Proof.
  intros Hk. rewrite DCHECK_bind.
  destruct assertions; simpl; [|done].
  destruct a; simpl; auto.
Qed.

Lemma ReadMetadata_outcome assertions d file_system_id request_id st :
  outcome_ok assertions file_system_id request_id st
    (ReadMetadata assertions d file_system_id request_id st).
Proof.
  destruct (decide (assertions = false ∨ volumes_ st !! file_system_id = None))
    as [Hpass | Hfail].
  - assert (Hnew : assertions = true → volumes_ st !! file_system_id = None).
    { intros ->. by destruct Hpass. }
    rewrite ReadMetadata_created by done.
    destruct (Volume_Init (Volume_new file_system_id)) as [[] v1]; simpl.
    + rewrite DCHECK_bind.
      destruct (assertions && negb (is_string (Get d kArchiveSize))) eqn:Hc.
      * apply andb_prop in Hc as [-> _]. simpl. split; [done|].
        right. exists v1. auto.
      * erewrite invoke_live by apply lookup_insert_eq. simpl.
        rewrite insert_insert_eq. by apply Mounted.
    + by apply InitFailed.
  - destruct assertions; [|tauto].
    destruct (volumes_ st !! file_system_id) as [p0|] eqn:Hp0; [|tauto].
    unfold ReadMetadata, mbind at 1, M_bind at 1, volumes_find.
    rewrite Hp0, DCHECK_fail. simpl. auto.
Qed.

(** Whatever the message, [HandleMessage] ends in one of the ways that
    [outcome_ok] lists for the ids the message carries. *)
Lemma HandleMessage_outcome assertions var_message st :
  outcome_ok assertions
    (AsString (Get (var_dict_of var_message) kFileSystemId))
    (AsString (Get (var_dict_of var_message) kRequestId)) st
    (HandleMessage assertions var_message st).
Proof.
  unfold HandleMessage.
  do 4 apply DCHECK_outcome.
  destruct (switch _) as [[]|].
  - apply ReadMetadata_outcome.
  - unfold ReadChunkDone. do 2 apply DCHECK_outcome.
    apply chunk_call_outcome.
  - apply chunk_call_outcome.
  - unfold OpenFile. do 2 apply DCHECK_outcome. apply guarded_call_outcome.
  - unfold CloseFile. apply DCHECK_outcome. apply guarded_call_outcome.
  - unfold ReadFile. do 4 apply DCHECK_outcome. apply guarded_call_outcome.
  - apply close_volume_outcome.
  - unfold PP_NOTREACHED, PP_DCHECK.
    destruct assertions; simpl; [auto | apply Unchanged].
Qed.

(** X1. Whatever message [HandleMessage] completes, its effect is one of
    five: none; the error of a failed [Init] posted and nothing else
    changed; a method called on the Volume registered under the file system
    id of the message, that object and the posted list alone changing; a
    new Volume registered under that id at a fresh address; the Volume
    registered under that id deleted and its entry erased. *)
Theorem completed_message_effect assertions var_message st st' :
  HandleMessage assertions var_message st = Done () st' →
  Effect assertions
    (AsString (Get (var_dict_of var_message) kFileSystemId))
    (AsString (Get (var_dict_of var_message) kRequestId)) st st'.
Proof.
  intros Hdone.
  pose proof (HandleMessage_outcome assertions var_message st) as Ho.
  by rewrite Hdone in Ho.
Qed.

Lemma Effect_frame assertions file_system_id request_id st st' id :
  registry_ok st →
  Effect assertions file_system_id request_id st st' →
  id ≠ file_system_id →
  volumes_ st' !! id = volumes_ st !! id ∧
  ∀ q, volumes_ st !! id = Some q → objects st' !! q = objects st !! q.
Proof.
  intros [Hlive Hinj] He Hne.
  destruct He as [| Hnew | p v v' ms Hp Hv | v' ms Hnew | p v Hp Hv]; simpl.
  - done.
  - done.
  - split; [done|]. intros q Hq. apply lookup_insert_ne.
    intros <-. apply Hne. eauto.
  - split; [by apply lookup_insert_ne|]. intros q Hq.
    apply lookup_insert_ne. intros <-.
    apply Hlive in Hq as [w Hw]. rewrite fresh_object_free in Hw. done.
  - split; [by apply lookup_delete_ne|]. intros q Hq.
    apply lookup_delete_ne. intros <-. apply Hne. eauto.
Qed.

(** X2. A message leaves the volumes it does not name alone: after any
    completed message, an entry of [volumes_] under another file system id
    is what it was, and so is the Volume it points to. *)
Theorem other_volumes_untouched assertions var_message st st' id :
  registry_ok st →
  HandleMessage assertions var_message st = Done () st' →
  id ≠ AsString (Get (var_dict_of var_message) kFileSystemId) →
  volumes_ st' !! id = volumes_ st !! id ∧
  ∀ q, volumes_ st !! id = Some q → objects st' !! q = objects st !! q.
Proof.
  intros Hok Hdone Hne.
  pose proof (HandleMessage_outcome assertions var_message st) as Ho.
  rewrite Hdone in Ho. by eapply Effect_frame.
Qed.



Lemma run_defined var_messages st :
  registry_ok st → run true var_messages st ≠ Undefined.
Proof.
  revert st. induction var_messages as [|m ms IH]; intros st Hok; simpl.
  - done.
  - unfold mbind, M_bind.
    pose proof (HandleMessage_outcome true m st) as Ho.
    destruct (HandleMessage true m st) as [[] st1 | st1 |] eqn:Hm.
    + apply IH. eapply HandleMessage_keeps; eauto.
    + done.
    + simpl in Ho. by apply Ho in Hok.
Qed.

(** X4. With assertions compiled in, the instance never runs into
    undefined behaviour, whatever messages JavaScript sends and in whatever
    order: every dereference of an iterator is behind an assertion that
    stops the process first, and every pointer in the registry is live. *)
Theorem assertions_exclude_undefined var_messages :
  run true var_messages initial ≠ Undefined.
Proof. apply run_defined, initial_ok. Qed.

(** X5. In every state the instance reaches, in either build, each entry of
    [volumes_] points to a live Volume and no two entries point to the same
    one: the registry holds no dangling and no shared pointer. *)
Theorem registry_invariant assertions var_messages st :
  run assertions var_messages initial = Done () st →
  (∀ id p, volumes_ st !! id = Some p → is_Some (objects st !! p)) ∧
  (∀ id1 id2 p,
     volumes_ st !! id1 = Some p → volumes_ st !! id2 = Some p → id1 = id2).
Proof. intros Hrun. exact (run_keeps _ _ _ _ _ initial_ok Hrun). Qed.

Lemma Effect_no_leak file_system_id request_id st st' :
  Effect true file_system_id request_id st st' →
  no_leak st → no_leak st'.
Proof.
  intros He Hst.
  destruct He as [| Hnew | p v v' ms Hp Hv | v' ms Hnew | p v Hp Hv];
    intros q Hq; simpl in *.
  - by apply Hst.
  - by apply Hst.
  - apply Hst. apply lookup_insert_is_Some in Hq as [<- | [_ Hq]]; eauto.
  - apply lookup_insert_is_Some in Hq as [<- | [Hne Hq]].
    + exists file_system_id. apply lookup_insert_eq.
    + destruct (Hst q Hq) as [id Hid]. exists id.
      rewrite lookup_insert_ne; [done|].
      intros <-. rewrite Hnew in Hid by done. done.
  - apply lookup_delete_is_Some in Hq as [Hne Hq].
    destruct (Hst q Hq) as [id Hid]. exists id.
    rewrite lookup_delete_ne; [done|]. intros <-. congruence.
Qed.

Lemma run_no_leak var_messages st st' :
  no_leak st → run true var_messages st = Done () st' → no_leak st'.
Proof.
  revert st. induction var_messages as [|m ms IH]; intros st Hst; simpl.
  - intros E. unfold mret, M_ret in E. by simplify_eq.
  - unfold mbind, M_bind.
    pose proof (HandleMessage_outcome true m st) as Ho.
    destruct (HandleMessage true m st) as [[] st1 | st1 |]; try done.
    apply IH. by eapply Effect_no_leak.
Qed.

(** X6. With assertions compiled in, no Volume is lost: in every state the
    instance reaches, each live Volume is pointed to by an entry of
    [volumes_]. *)
Theorem assertions_exclude_leak var_messages st :
  run true var_messages initial = Done () st → no_leak st.
Proof.
  apply run_no_leak. intros p [v Hv]. simpl in Hv.
  by rewrite lookup_empty in Hv.
Qed.

(** ** Destroying the instance *)

Lemma delete_all_spec ps st :
  NoDup ps →
  (∀ p, p ∈ ps → is_Some (objects st !! p)) →
  ∃ objects',
    delete_all ps st = Done () (mkState (volumes_ st) objects' (posted st)) ∧
    (∀ q, q ∈ ps → objects' !! q = None) ∧
    (∀ q, q ∉ ps → objects' !! q = objects st !! q).
Proof.
  revert st. induction ps as [|p ps IH]; intros st Hnd Hlive; simpl.
  - exists (objects st). split; [by destruct st|].
    split; [by intros q ?%elem_of_nil | done].
  - apply NoDup_cons in Hnd as [Hp Hnd].
    destruct (Hlive p) as [v Hv]; [by left|].
    unfold mbind, M_bind, delete_Volume. rewrite Hv.
    destruct (IH (mkState (volumes_ st) (delete p (objects st)) (posted st)))
      as (objects' & Hrun & Hin & Hout); [done| |].
    { intros q Hq. simpl. rewrite lookup_delete_ne by (by intros ->).
      apply Hlive. by right. }
    exists objects'. split; [exact Hrun|]. simpl in *. split.
    + intros q [-> | Hq]%elem_of_cons; [|by apply Hin].
      rewrite Hout by done. apply lookup_delete_eq.
    + intros q [Hne Hq]%not_elem_of_cons.
      rewrite Hout by done. by apply lookup_delete_ne.
Qed.

Lemma registry_pointers st q :
  q ∈ (map_to_list (volumes_ st)).*2 ↔ ∃ id, volumes_ st !! id = Some q.
Proof.
  rewrite list_elem_of_fmap. split.
  - intros ([id q'] & -> & Hin). exists id. by apply elem_of_map_to_list.
  - intros [id Hid]. exists (id, q). split; [done|].
    by apply elem_of_map_to_list.
Qed.

Lemma registry_pointers_NoDup st :
  registry_ok st → NoDup (map_to_list (volumes_ st)).*2.
Proof.
  intros [_ Hinj]. apply NoDup_fmap_2_strong; [|apply NoDup_map_to_list].
  intros [id1 q1] [id2 q2] H1%elem_of_map_to_list H2%elem_of_map_to_list E.
  simpl in E. subst q2. f_equal. eauto.
Qed.

Lemma destructor_spec st ps :
  registry_ok st →
  ps ≡ₚ (map_to_list (volumes_ st)).*2 →
  ∃ objects',
    delete_all ps st = Done () (mkState (volumes_ st) objects' (posted st)) ∧
    (∀ id q, volumes_ st !! id = Some q → objects' !! q = None) ∧
    (∀ q, (∀ id, volumes_ st !! id ≠ Some q) → objects' !! q = objects st !! q).
Proof.
  intros Hok Hperm.
  destruct (delete_all_spec ps st) as (objects' & Hrun & Hin & Hout).
  - rewrite Hperm. by apply registry_pointers_NoDup.
  - intros p Hp. rewrite Hperm in Hp. apply registry_pointers in Hp as [id Hid].
    destruct Hok as [Hlive _]. eauto.
  - exists objects'. split; [exact Hrun|]. split.
    + intros id q Hq. apply Hin. rewrite Hperm. apply registry_pointers. eauto.
    + intros q Hq. apply Hout. rewrite Hperm. intros [id Hid]%registry_pointers.
      by destruct (Hq id).
Qed.

(** X7. Destroying an instance whose registry is sound deletes each Volume
    in [volumes_] exactly once, in whatever order the entries are visited:
    the loop never deletes a dead object, the Volumes the registry pointed
    to are gone, every other object on the free store is as it was, and
    nothing is posted. *)
Theorem destructor_deletes_registered st ps :
  registry_ok st →
  ps ≡ₚ (map_to_list (volumes_ st)).*2 →
  ∃ st',
    delete_all ps st = Done () st' ∧
    destructor st = Done () st' ∧
    posted st' = posted st ∧
    (∀ id q, volumes_ st !! id = Some q → objects st' !! q = None) ∧
    (∀ q, (∀ id, volumes_ st !! id ≠ Some q) →
          objects st' !! q = objects st !! q).
Proof.
  intros Hok Hperm.
  destruct (destructor_spec st ps Hok Hperm) as (o1 & Hrun1 & Hin1 & Hout1).
  destruct (destructor_spec st _ Hok (reflexivity _))
    as (o2 & Hrun2 & Hin2 & Hout2).
  assert (o2 = o1) as ->.
  { apply map_eq. intros q.
    destruct (decide (q ∈ (map_to_list (volumes_ st)).*2)) as [Hq | Hq].
    - apply registry_pointers in Hq as [id Hid].
      by rewrite (Hin1 id q), (Hin2 id q).
    - assert (∀ id, volumes_ st !! id ≠ Some q).
      { intros id Hid. apply Hq, registry_pointers. eauto. }
      by rewrite Hout1, Hout2. }
  eexists. split; [exact Hrun1|]. split; [exact Hrun2|]. done.
Qed.

(** X8. With assertions compiled in, destroying the instance after any
    messages it has handled gives back every Volume it created: the
    destructor completes and leaves no live Volume. *)
Theorem destructor_frees_everything var_messages st :
  run true var_messages initial = Done () st →
  ∃ st', destructor st = Done () st' ∧ objects st' = ∅ ∧
         posted st' = posted st.
Proof.
  intros Hrun.
  assert (Hok : registry_ok st) by exact (run_keeps _ _ _ _ _ initial_ok Hrun).
  assert (Hleak : no_leak st).
  { eapply run_no_leak; [|exact Hrun]. intros p [v Hv]. simpl in Hv.
    by rewrite lookup_empty in Hv. }
  destruct (destructor_spec st _ Hok (reflexivity _))
    as (objects' & Hdes & Hin & Hout).
  eexists. split; [exact Hdes|]. split; [|done]. simpl.
  apply map_eq. intros q. rewrite lookup_empty.
  destruct (objects st !! q) as [v|] eqn:Hv.
  - destruct (Hleak q) as [id Hid]; [by rewrite Hv|]. eauto.
  - destruct (objects' !! q) as [w|] eqn:Hw; [|done].
    rewrite <- Hw, <- Hv. apply Hout. intros id Hid.
    destruct Hok as [Hlive _]. apply Hlive in Hid as [u Hu]. congruence.
Qed.

(** ** Mounting, once more *)

(** The state a ReadMetadata request leaves when its first assertion
    passes and [Init] succeeds. *)
Lemma ReadMetadata_mounts assertions var_message file_system_id request_id
    st v1 :
  is_request var_message READ_METADATA file_system_id request_id →
  assertions = false ∨ volumes_ st !! file_system_id = None →
  Volume_Init (Volume_new file_system_id) = (true, v1) →
  let p := fresh (dom (objects st)) in
  let called :=
    Volume_ReadMetadata request_id
      (GetInt64FromString (var_dict_of var_message) kArchiveSize) v1 in
  HandleMessage assertions var_message st
  = Done () (mkState (<[file_system_id := p]> (volumes_ st))
               (<[p := called.1]> (objects st))
               (posted st ++ (message_of <$> called.2))).
Proof.
  intros Hreq Hpass Hinit p called. enter_case Hreq.
  rewrite ReadMetadata_created by done. rewrite Hinit. simpl.
  simpl in Hfields. rewrite Hfields, DCHECK_pass.
  erewrite invoke_live by apply lookup_insert_eq. simpl.
  by rewrite insert_insert_eq.
Qed.

(** X9. Mounting a volume and closing it again gives back the registry and
    the free store as they were: after a ReadMetadata request for an id
    that is not registered and a CloseVolume request for the same id, only
    the list of posted messages differs, by what [Volume::ReadMetadata]
    sent. The id can then be mounted anew. *)
Theorem mount_then_close_restores assertions mount close file_system_id
    request_id close_id st v1 :
  is_request mount READ_METADATA file_system_id request_id →
  is_request close CLOSE_VOLUME file_system_id close_id →
  volumes_ st !! file_system_id = None →
  Volume_Init (Volume_new file_system_id) = (true, v1) →
  let called :=
    Volume_ReadMetadata request_id
      (GetInt64FromString (var_dict_of mount) kArchiveSize) v1 in
  run assertions [mount; close] st
  = Done () (mkState (volumes_ st) (objects st)
               (posted st ++ (message_of <$> called.2))).
Proof.
  intros Hmount Hclose Hnew Hinit called. simpl. unfold mbind, M_bind.
  erewrite ReadMetadata_mounts by eauto.
  erewrite CloseVolume_registered;
    [| exact Hclose | apply lookup_insert_eq
     | simpl; rewrite lookup_insert_eq; eauto ].
  simpl. unfold mret, M_ret. f_equal. f_equal.
  - rewrite delete_insert_eq. by apply delete_id.
  - rewrite delete_insert_eq. apply delete_id, fresh_object_free.
Qed.

(** X10. Without assertions a second ReadMetadata request for a registered
    id, whose new Volume initialises, loses the Volume registered before:
    the id now points to the new Volume; the old one is still live but no
    entry of [volumes_] points to it any more, so neither a CloseVolume
    request nor the destructor will delete it. *)
Theorem unchecked_duplicate_leaks_volume var_message file_system_id
    request_id st p0 v1 :
  is_request var_message READ_METADATA file_system_id request_id →
  registry_ok st →
  volumes_ st !! file_system_id = Some p0 →
  Volume_Init (Volume_new file_system_id) = (true, v1) →
  ∃ st',
    HandleMessage false var_message st = Done () st' ∧
    volumes_ st' !! file_system_id = Some (fresh (dom (objects st))) ∧
    is_Some (objects st' !! p0) ∧
    (∀ id, volumes_ st' !! id ≠ Some p0) ∧
    ¬ no_leak st'.
Proof.
  intros Hreq [Hlive Hinj] Hp0 Hinit.
  erewrite ReadMetadata_mounts by eauto.
  destruct (Hlive _ _ Hp0) as [v0 Hv0].
  assert (Hne : fresh (dom (objects st)) ≠ p0).
  { intros E. pose proof (fresh_object_free st) as Hf. congruence. }
  assert (Hold : is_Some (<[fresh (dom (objects st)) :=
                   (Volume_ReadMetadata request_id
                      (GetInt64FromString (var_dict_of var_message)
                         kArchiveSize) v1).1]> (objects st) !! p0)).
  { rewrite lookup_insert_ne by done. eauto. }
  assert (Hgone : ∀ id,
            <[file_system_id := fresh (dom (objects st))]> (volumes_ st) !! id
            ≠ Some p0).
  { intros id [[_ E] | [Hid Hq]]%lookup_insert_Some; [done|].
    apply Hid. eauto. }
  eexists. split; [done|]. simpl.
  split; [apply lookup_insert_eq|]. split; [exact Hold|].
  split; [exact Hgone|].
  intros Hnl. destruct (Hnl p0 Hold) as [id Hid]. simpl in Hid.
  by destruct (Hgone id).
Qed.

(** ** Requests for a registered volume *)

(** X11. A chunk event or a file request for a registered volume ends in
    the method of that Volume which [forwarded] names, called with the
    request id and the arguments read from the message: the handler
    returns, the registry is as before, the Volume is what the method left
    and what the method sent has been posted, in that order. A ReadFile
    request needs a positive length for this only when assertions are
    compiled in. *)
Theorem registered_request_forwarded assertions var_message o file_system_id
    request_id st p v method :
  is_request var_message o file_system_id request_id →
  forwarded o (var_dict_of var_message) request_id = Some method →
  volumes_ st !! file_system_id = Some p →
  objects st !! p = Some v →
  (o = READ_FILE →
   assertions = false ∨ AsInt (Get (var_dict_of var_message) kLength) > 0) →
  HandleMessage assertions var_message st
  = Done () (mkState (volumes_ st) (<[p := (method v).1]> (objects st))
               (posted st ++ (message_of <$> (method v).2))).
Proof.
  intros Hreq Hm Hp Hv Hlen.
  destruct o; simpl in Hm; simplify_eq; enter_case Hreq; simpl in Hfields.
  - apply andb_prop in Hfields as [Hbuf Hoff].
    unfold ReadChunkDone. rewrite Hbuf, Hoff, !DCHECK_pass.
    rewrite chunk_call_eq, Hp. by apply invoke_live.
  - unfold ReadChunkError. rewrite chunk_call_eq, Hp. by apply invoke_live.
  - apply andb_prop in Hfields as [Hpath Hsize].
    unfold OpenFile. rewrite Hpath, Hsize, !DCHECK_pass.
    rewrite guarded_call_eq, Hp. by apply invoke_live.
  - unfold CloseFile. rewrite Hfields, DCHECK_pass.
    rewrite guarded_call_eq, Hp. by apply invoke_live.
  - apply andb_prop in Hfields as [Hfields Hint].
    apply andb_prop in Hfields as [Hopen Hoff].
    unfold ReadFile. rewrite Hopen, Hoff, Hint, !DCHECK_pass.
    rewrite DCHECK_bind.
    assert (assertions
            && negb (bool_decide
                       (AsInt (Get (var_dict_of var_message) kLength) > 0))
            = false) as ->.
    { destruct Hlen as [-> | Hpos]; [done | done |].
      rewrite bool_decide_true by done. apply andb_false_r. }
    rewrite guarded_call_eq, Hp. by apply invoke_live.
Qed.

(** ** Messages that are not requests *)

(** X12. With assertions compiled in, a message that is not a dictionary,
    or whose operation is not an int, or whose file system id or request
    id is not a string, stops the process at one of the four assertions at
    the head of [HandleMessage], before anything was changed or posted. *)
Theorem malformed_message_aborts var_message st :
  is_dictionary var_message
  && is_int (Get (var_dict_of var_message) kOperation)
  && is_string (Get (var_dict_of var_message) kFileSystemId)
  && is_string (Get (var_dict_of var_message) kRequestId) = false →
  HandleMessage true var_message st = Abort st.
Proof.
  intros Hbad. unfold HandleMessage. rewrite !DCHECK_bind.
  repeat (case_match; [done|]). simpl in *.
  repeat match goal with
         | E : negb _ = false |- _ => apply negb_false_iff in E; rewrite E in Hbad
         end.
  discriminate Hbad.
Qed.

(** X13. With assertions compiled in, a request for an operation other
    than ReadMetadata that lacks a field the operation needs, or carries
    it with the wrong kind, stops the process before the registry is even
    looked at: nothing was changed or posted. *)
Theorem missing_field_aborts var_message o file_system_id request_id st :
  is_dictionary var_message = true →
  Get (var_dict_of var_message) kOperation = VarInt (code o) →
  Get (var_dict_of var_message) kFileSystemId = VarString file_system_id →
  Get (var_dict_of var_message) kRequestId = VarString request_id →
  o ≠ READ_METADATA →
  required_fields o (var_dict_of var_message) = false →
  HandleMessage true var_message st = Abort st.
Proof.
  intros Hdict Hop Hfs Hrid Ho Hfields.
  assert (Hreq : is_dictionary var_message = true ∧
                 Get (var_dict_of var_message) kOperation = VarInt (code o) ∧
                 Get (var_dict_of var_message) kFileSystemId
                 = VarString file_system_id ∧
                 Get (var_dict_of var_message) kRequestId
                 = VarString request_id ∧ True) by done.
  destruct o; try done; simpl in Hfields; enter_case Hreq;
    unfold ReadChunkDone, OpenFile, CloseFile, ReadFile;
    rewrite !DCHECK_bind; simpl;
    repeat (case_match; [done|]);
    repeat match goal with
           | E : negb _ = false |- _ =>
               apply negb_false_iff in E; rewrite E in Hfields
           end;
    discriminate Hfields.
Qed.

(** X14. The archive size of a ReadMetadata request is asserted only after
    the Volume has been created, initialised and registered: with
    assertions compiled in, a request for a new id whose archive size is
    not a string stops the process with the new Volume already in
    [volumes_], and [Volume::ReadMetadata] not called. *)
Theorem archive_size_asserted_after_registering var_message file_system_id
    request_id st v1 :
  is_dictionary var_message = true →
  Get (var_dict_of var_message) kOperation = VarInt (code READ_METADATA) →
  Get (var_dict_of var_message) kFileSystemId = VarString file_system_id →
  Get (var_dict_of var_message) kRequestId = VarString request_id →
  is_string (Get (var_dict_of var_message) kArchiveSize) = false →
  volumes_ st !! file_system_id = None →
  Volume_Init (Volume_new file_system_id) = (true, v1) →
  HandleMessage true var_message st
  = Abort (mkState
             (<[file_system_id := fresh (dom (objects st))]> (volumes_ st))
             (<[fresh (dom (objects st)) := v1]> (objects st))
             (posted st)).
Proof.
  intros Hdict Hop Hfs Hrid Hsize Hnew Hinit.
  assert (Hreq : is_dictionary var_message = true ∧
                 Get (var_dict_of var_message) kOperation
                 = VarInt (code READ_METADATA) ∧
                 Get (var_dict_of var_message) kFileSystemId
                 = VarString file_system_id ∧
                 Get (var_dict_of var_message) kRequestId
                 = VarString request_id ∧ True) by done.
  enter_case Hreq.
  rewrite ReadMetadata_created by auto. rewrite Hinit. simpl.
  rewrite Hsize. apply DCHECK_fail.
Qed.

(** X15. With assertions compiled in, only requests are completed: if
    [HandleMessage] returns, the message was a dictionary whose operation
    is the code of one of the seven operations and whose file system id
    and request id are strings; unless the operation is ReadMetadata it
    had the fields the operation needs, and a ReadFile request had a
    positive length. *)
Theorem completed_message_was_request var_message st st' :
  HandleMessage true var_message st = Done () st' →
  ∃ o,
    is_dictionary var_message = true ∧
    Get (var_dict_of var_message) kOperation = VarInt (code o) ∧
    is_string (Get (var_dict_of var_message) kFileSystemId) = true ∧
    is_string (Get (var_dict_of var_message) kRequestId) = true ∧
    (o ≠ READ_METADATA → required_fields o (var_dict_of var_message) = true) ∧
    (o = READ_FILE → AsInt (Get (var_dict_of var_message) kLength) > 0).
Proof.
  unfold HandleMessage. rewrite !DCHECK_bind. simpl.
  destruct (is_dictionary var_message); [|done].
  destruct (Get (var_dict_of var_message) kOperation) as [| | |n| | |] eqn:Hop;
    try done.
  destruct (is_string (Get (var_dict_of var_message) kFileSystemId)); [|done].
  destruct (is_string (Get (var_dict_of var_message) kRequestId)); [|done].
  simpl. destruct (switch n) as [o|] eqn:Hsw; [|done].
  apply switch_Some in Hsw as <-. intros Hdone. exists o.
  do 4 (split; [done|]).
  destruct o; unfold ReadChunkDone, OpenFile, CloseFile, ReadFile in Hdone;
    rewrite ?DCHECK_bind in Hdone; simpl in *;
    repeat match type of Hdone with
           | (if negb ?b then _ else _) = _ =>
               destruct b eqn:?; simpl in Hdone; [|discriminate Hdone]
           end;
    (split; [try done | intros; try done]).
  match goal with
  | E : bool_decide _ = true |- _ => by apply bool_decide_eq_true in E
  end.
Qed.

End Properties.

(** ** Deliveries are serialised *)

Section Serialised.
Implicit Types (s : Sender) (t : thread).

Lemma position_move s t p t' lock msgs :
  position (mkSender lock (move t p s) msgs) t'
  = if decide (t = t') then p else position s t'.
Proof.
  unfold position, move. simpl. rewrite lookup_insert.
  by destruct (decide (t = t')).
Qed.

(** X21. A thread that runs [SafePostMessage] undisturbed, from outside
    and with the lock free, delivers its message and leaves the lock free:
    what [Send] does in the sequential view. *)
Lemma SafePostMessage_alone s t c :
  position s t = Outside →
  post_message_lock_ s = None →
  steps [Enter t c; Acquire t; BeginPost t; EndPost t; Release t] s
  = Some (mkSender None (<[t := Outside]> (positions s))
            (delivered s ++ [message_of c])).
Proof.
  intros Hout Hfree. simpl. rewrite Hout. simpl.
  rewrite position_move, decide_True by done. rewrite Hfree. simpl.
  rewrite position_move, decide_True by done. simpl.
  rewrite position_move, decide_True by done. simpl.
  rewrite position_move, decide_True by done. simpl.
  unfold move. simpl. by rewrite !insert_insert_eq.
Qed.

Lemma step_lock_inv e s s' : lock_inv s → step e s = Some s' → lock_inv s'.
Proof.
  intros Hinv Hstep t'.
  destruct e as [t c | t | t | t | t]; simpl in Hstep;
    destruct (position s t) eqn:Hpos; try discriminate Hstep.
  - (* Enter *)
    injection Hstep as <-. rewrite position_move. simpl.
    destruct (decide (t = t')) as [<- | Hne]; [|apply Hinv].
    simpl. split; [done|]. intros E. apply Hinv in E. by rewrite Hpos in E.
  - (* Acquire *)
    destruct (post_message_lock_ s) eqn:Hlock; [done|].
    injection Hstep as <-. rewrite position_move. simpl.
    destruct (decide (t = t')) as [<- | Hne]; simpl; [done|].
    split; [|congruence]. intros E. apply Hinv in E. congruence.
  - (* BeginPost *)
    injection Hstep as <-. rewrite position_move. simpl.
    destruct (decide (t = t')) as [<- | Hne]; [|apply Hinv].
    simpl. split; [intros _ | done]. apply Hinv. by rewrite Hpos.
  - (* EndPost *)
    injection Hstep as <-. rewrite position_move. simpl.
    destruct (decide (t = t')) as [<- | Hne]; [|apply Hinv].
    simpl. split; [intros _ | done]. apply Hinv. by rewrite Hpos.
  - (* Release *)
    injection Hstep as <-. rewrite position_move. simpl.
    destruct (decide (t = t')) as [<- | Hne]; simpl; [done|].
    split; [|done]. intros E. apply Hinv in E.
    assert (post_message_lock_ s = Some t) by (apply Hinv; by rewrite Hpos).
    congruence.
Qed.

Lemma steps_lock_inv es s s' : lock_inv s → steps es s = Some s' → lock_inv s'.
Proof.
  revert s. induction es as [|e es IH]; intros s Hinv; simpl.
  - by intros [= <-].
  - destruct (step e s) as [s1|] eqn:E; [|done]. simpl.
    apply IH. by eapply step_lock_inv.
Qed.

Lemma idle_lock_inv : lock_inv idle.
Proof. intros t. unfold position. simpl. by rewrite lookup_empty. Qed.

(** C6. However the threads that call the six methods of the sender
    interleave, in every state they reach at most one thread is inside
    [PostMessage]: two deliveries in flight are the same delivery of the
    same thread. All of them go through [SafePostMessage], which holds the
    one lock of the sender around the call. *)
Theorem one_delivery_in_flight es s t1 t2 message1 message2 :
  steps es idle = Some s →
  position s t1 = Posting message1 →
  position s t2 = Posting message2 →
  t1 = t2 ∧ message1 = message2.
Proof.
  intros Hreach H1 H2.
  apply steps_lock_inv in Hreach; [|apply idle_lock_inv].
  assert (E1 : post_message_lock_ s = Some t1) by (apply Hreach; by rewrite H1).
  assert (E2 : post_message_lock_ s = Some t2) by (apply Hreach; by rewrite H2).
  assert (t1 = t2) as <- by congruence.
  split; [done | congruence].
Qed.

(** ** More on the lock *)

(** X16. In every state the threads reach, the lock is held by a thread
    exactly when that thread is between [Acquire] and [Release] in
    [SafePostMessage]; so the lock is free exactly when no thread is
    there, and it is never left held by a thread that went on. *)
Theorem lock_held_inside_only es s t :
  steps es idle = Some s →
  in_section (position s t) = true ↔ post_message_lock_ s = Some t.
Proof.
  intros Hreach. revert t. change (lock_inv s).
  eapply steps_lock_inv; [apply idle_lock_inv | exact Hreach].
Qed.

Lemma steps_app es1 es2 s :
  steps (es1 ++ es2) s = s1 ← steps es1 s; steps es2 s1.
Proof.
  revert s. induction es1 as [|e es1 IH]; intros s; simpl; [done|].
  destruct (step e s); simpl; [apply IH | done].
Qed.

Lemma steps_step e es s s1 :
  step e s = Some s1 → steps (e :: es) s = steps es s1.
Proof. intros Hstep. simpl. by rewrite Hstep. Qed.

Lemma step_Acquire s t m :
  position s t = Waiting m → post_message_lock_ s = None →
  step (Acquire t) s
  = Some (mkSender (Some t) (move t (Holding m) s) (delivered s)).
Proof. intros Hpos Hfree. unfold step. by rewrite Hpos, Hfree. Qed.

Lemma step_BeginPost s t m :
  position s t = Holding m →
  step (BeginPost t) s
  = Some (mkSender (post_message_lock_ s) (move t (Posting m) s)
            (delivered s)).
Proof. intros Hpos. unfold step. by rewrite Hpos. Qed.

Lemma step_EndPost s t m :
  position s t = Posting m →
  step (EndPost t) s
  = Some (mkSender (post_message_lock_ s) (move t Releasing s)
            (delivered s ++ [m])).
Proof. intros Hpos. unfold step. by rewrite Hpos. Qed.

Lemma step_Release s t :
  position s t = Releasing →
  step (Release t) s = Some (mkSender None (move t Outside s) (delivered s)).
Proof. intros Hpos. unfold step. by rewrite Hpos. Qed.

Lemma position_move_eq s t p lock msgs :
  position (mkSender lock (move t p s) msgs) t = p.
Proof. by rewrite position_move, decide_True. Qed.

Lemma position_move_ne s t p lock msgs t' :
  t' ≠ t → position (mkSender lock (move t p s) msgs) t' = position s t'.
Proof. intros Hne. by rewrite position_move, decide_False. Qed.

Lemma from_Releasing s t :
  position s t = Releasing →
  ∃ s', steps [Release t] s = Some s' ∧ call_finished s t s'.
Proof.
  intros Hpos. eexists. split.
  - erewrite steps_step by by apply step_Release. done.
  - split; [apply position_move_eq|]. split; [done|].
    split; [intros; by apply position_move_ne|].
    rewrite Hpos. simpl. by rewrite app_nil_r.
Qed.

Lemma from_Posting s t m :
  position s t = Posting m →
  ∃ s', steps [EndPost t; Release t] s = Some s' ∧ call_finished s t s'.
Proof.
  intros Hpos.
  destruct (from_Releasing
              (mkSender (post_message_lock_ s) (move t Releasing s)
                 (delivered s ++ [m])) t)
    as (s' & Hrun & Hout & Hfree & Hsame & Hdel);
    [apply position_move_eq|].
  exists s'. split.
  - erewrite steps_step by by apply step_EndPost. exact Hrun.
  - split; [done|]. split; [done|]. split.
    + intros t' Hne. rewrite Hsame by done. by apply position_move_ne.
    + rewrite Hdel, position_move_eq, Hpos. simpl. by rewrite app_nil_r.
Qed.

Lemma from_Holding s t m :
  position s t = Holding m →
  ∃ s', steps [BeginPost t; EndPost t; Release t] s = Some s' ∧
        call_finished s t s'.
Proof.
  intros Hpos.
  destruct (from_Posting
              (mkSender (post_message_lock_ s) (move t (Posting m) s)
                 (delivered s)) t m)
    as (s' & Hrun & Hout & Hfree & Hsame & Hdel);
    [apply position_move_eq|].
  exists s'. split.
  - erewrite steps_step by by apply step_BeginPost. exact Hrun.
  - split; [done|]. split; [done|]. split.
    + intros t' Hne. rewrite Hsame by done. by apply position_move_ne.
    + by rewrite Hdel, position_move_eq, Hpos.
Qed.

Lemma from_Waiting s t m :
  position s t = Waiting m →
  post_message_lock_ s = None →
  ∃ s', steps [Acquire t; BeginPost t; EndPost t; Release t] s = Some s' ∧
        call_finished s t s'.
Proof.
  intros Hpos Hlock.
  destruct (from_Holding
              (mkSender (Some t) (move t (Holding m) s) (delivered s)) t m)
    as (s' & Hrun & Hout & Hfree & Hsame & Hdel);
    [apply position_move_eq|].
  exists s'. split.
  - erewrite steps_step by by apply step_Acquire. exact Hrun.
  - split; [done|]. split; [done|]. split.
    + intros t' Hne. rewrite Hsame by done. by apply position_move_ne.
    + by rewrite Hdel, position_move_eq, Hpos.
Qed.

(** A thread inside [SafePostMessage] that holds the lock, or finds it
    free, gets through the rest of its call on its own. *)
Lemma rest_of_call_runs s t :
  position s t ≠ Outside →
  in_section (position s t) = true ∨ post_message_lock_ s = None →
  ∃ s', steps (rest_of_call t (position s t)) s = Some s' ∧
        call_finished s t s'.
Proof.
  intros Hin Hcan.
  destruct (position s t) as [|m|m|m|] eqn:Hpos; simpl rest_of_call.
  - done.
  - destruct Hcan as [?|Hfree]; [done|].
    destruct (from_Waiting s t m Hpos Hfree) as (s' & Hrun & Hfin).
    by exists s'.
  - destruct (from_Holding s t m Hpos) as (s' & Hrun & Hfin).
    by exists s'.
  - destruct (from_Posting s t m Hpos) as (s' & Hrun & Hfin).
    by exists s'.
  - destruct (from_Releasing s t Hpos) as (s' & Hrun & Hfin).
    by exists s'.
Qed.

(** X17. The sender cannot deadlock: in every state the threads reach, if
    some thread is inside [SafePostMessage] then a thread inside it can
    take its next step, namely the thread itself or, when it waits for the
    lock, the thread that holds the lock. *)
Theorem some_thread_inside_can_step es s t :
  steps es idle = Some s →
  position s t ≠ Outside →
  ∃ e s',
    step e s = Some s' ∧
    position s (thread_of e) ≠ Outside ∧
    (thread_of e = t ∨ post_message_lock_ s = Some (thread_of e)).
Proof.
  intros Hreach Hin.
  apply steps_lock_inv in Hreach; [|apply idle_lock_inv].
  assert (Hgo : ∀ t', in_section (position s t') = true →
                  ∃ e s', step e s = Some s' ∧ thread_of e = t').
  { intros t' Ht'. destruct (position s t') as [|m|m|m|] eqn:Hpos; try done.
    - exists (BeginPost t'). eexists. split; [by apply step_BeginPost | done].
    - exists (EndPost t'). eexists. split; [by apply step_EndPost | done].
    - exists (Release t'). eexists. split; [by apply step_Release | done]. }
  destruct (in_section (position s t)) eqn:Hsec.
  - destruct (Hgo t Hsec) as (e & s' & Hstep & <-). exists e, s'. auto.
  - destruct (position s t) as [|m|m|m|] eqn:Hpos; try done.
    destruct (post_message_lock_ s) as [t'|] eqn:Hlock.
    + assert (Ht' : in_section (position s t') = true) by by apply Hreach.
      destruct (Hgo t' Ht') as (e & s' & Hstep & <-). exists e, s'.
      split; [done|]. split; [|by right].
      intros E. by rewrite E in Ht'.
    + exists (Acquire t). eexists. split; [by apply step_Acquire|].
      simpl. rewrite Hpos. auto.
Qed.

(** X18. No call of the sender is stuck for good: from every state the
    threads reach, a thread inside [SafePostMessage] can be brought out of
    it, with the lock left free, by letting the thread that holds the lock
    finish its call and then the thread itself; what is delivered on the
    way is the message of the holder, if it was still to be delivered,
    followed by the message of the thread. *)
Theorem every_call_can_complete es s t :
  steps es idle = Some s →
  position s t ≠ Outside →
  ∃ es' s' before,
    steps es' s = Some s' ∧
    position s' t = Outside ∧
    post_message_lock_ s' = None ∧
    (length before ≤ 1)%nat ∧
    delivered s'
    = delivered s ++ before ++ option_list (message_in (position s t)).
Proof.
  intros Hreach Hin.
  apply steps_lock_inv in Hreach; [|apply idle_lock_inv].
  destruct (decide (in_section (position s t) = true
                    ∨ post_message_lock_ s = None)) as [Hcan | Hwait].
  - destruct (rest_of_call_runs s t Hin Hcan)
      as (s' & Hrun & Hout & Hfree & _ & Hdel).
    exists (rest_of_call t (position s t)), s', [].
    split; [exact Hrun|]. split; [done|].
    split; [done|]. split; [simpl; lia | exact Hdel].
  - destruct (post_message_lock_ s) as [t'|] eqn:Hlock; [|tauto].
    assert (Ht' : in_section (position s t') = true) by by apply Hreach.
    assert (Hne : t ≠ t').
    { intros ->. tauto. }
    assert (Hin' : position s t' ≠ Outside).
    { intros E. by rewrite E in Ht'. }
    destruct (rest_of_call_runs s t' Hin' (or_introl Ht'))
      as (s1 & Hrun1 & _ & Hfree1 & Hsame1 & Hdel1).
    assert (Hpos1 : position s1 t = position s t) by by apply Hsame1.
    destruct (rest_of_call_runs s1 t)
      as (s' & Hrun2 & Hout & Hfree2 & _ & Hdel2).
    { by rewrite Hpos1. }
    { by right. }
    exists (rest_of_call t' (position s t') ++ rest_of_call t (position s1 t)),
           s', (option_list (message_in (position s t'))).
    split; [by rewrite steps_app, Hrun1|].
    split; [done|]. split; [done|].
    split; [destruct (message_in (position s t')); simpl; lia|].
    by rewrite Hdel2, Hdel1, Hpos1, <- app_assoc.
Qed.

Lemma in_transit_at (m : gmap thread Position) t :
  omap (λ tp, message_in tp.2) (map_to_list m)
  ≡ₚ option_list (message_in (default Outside (m !! t)))
     ++ omap (λ tp, message_in tp.2) (map_to_list (delete t m)).
Proof.
  destruct (m !! t) as [p|] eqn:Hp; simpl.
  - rewrite <- (map_to_list_delete m t p Hp). simpl.
    by destruct (message_in p).
  - by rewrite delete_id.
Qed.

Lemma in_transit_move s t p lock msgs :
  in_transit (mkSender lock (move t p s) msgs)
  ≡ₚ option_list (message_in p)
     ++ omap (λ tp, message_in tp.2) (map_to_list (delete t (positions s))).
Proof.
  unfold in_transit, move. simpl.
  rewrite (in_transit_at _ t), lookup_insert_eq, delete_insert_eq. done.
Qed.

Lemma step_conserves e s s' :
  step e s = Some s' →
  handed_over [e] ++ delivered s ++ in_transit s
  ≡ₚ delivered s' ++ in_transit s'.
Proof.
  intros Hstep.
  pose proof (in_transit_at (positions s) (thread_of e)) as Hat.
  fold (in_transit s) in Hat. fold (position s (thread_of e)) in Hat.
  destruct e as [t c | t | t | t | t]; simpl in *;
    destruct (position s t) eqn:Hpos; try discriminate Hstep;
    try (destruct (post_message_lock_ s); try discriminate Hstep);
    injection Hstep as <-; simpl;
    rewrite in_transit_move, Hat; simpl;
    first [ done | apply Permutation_middle | by rewrite <- app_assoc ].
Qed.

Lemma handed_over_cons e es :
  handed_over (e :: es) = handed_over [e] ++ handed_over es.
Proof. by destruct e. Qed.

Lemma steps_conserve es s s' :
  steps es s = Some s' →
  handed_over es ++ delivered s ++ in_transit s
  ≡ₚ delivered s' ++ in_transit s'.
Proof.
  revert s. induction es as [|e es IH]; intros s Hrun.
  - simpl in Hrun. by simplify_eq.
  - destruct (step e s) as [s1|] eqn:Hstep.
    + rewrite (steps_step _ _ _ _ Hstep) in Hrun.
      rewrite handed_over_cons.
      rewrite <- (IH s1 Hrun), <- (step_conserves e s s1 Hstep).
      rewrite <- app_assoc. apply Permutation_app_swap_app.
    + simpl in Hrun. by rewrite Hstep in Hrun.
Qed.

(** X19. The sender neither loses nor repeats a message: in every state the
    threads reach, the messages handed to the six methods so far are,
    counted with their multiplicity, the messages delivered to
    [PostMessage] together with those of the calls still under way. *)
Theorem messages_conserved es s :
  steps es idle = Some s →
  handed_over es ≡ₚ delivered s ++ in_transit s.
Proof.
  intros Hreach. apply steps_conserve in Hreach.
  unfold in_transit in Hreach at 1. simpl in Hreach.
  by rewrite map_to_list_empty, app_nil_r in Hreach.
Qed.

End Serialised.

(** * The dispatcher at work *)

Import Sample.

Ltac compute_request := repeat split; vm_compute; reflexivity.

Lemma mounted_reachable :
  run true [read_metadata "vol1" "r1" "1000"] initial = Done () mounted.
Proof. vm_compute. reflexivity. Qed.

Lemma mounted_ok : registry_ok mounted.
Proof. exact (reachable_ok true _ _ mounted_reachable). Defined.

(** ["vol1"] is closed while a chunk for it is under way; the chunk
    arrives afterwards and is ignored. *)
Lemma chunk_event_without_volume_ignored_witness :
  HandleMessage true close_mounted mounted = Done () unmounted ∧
  HandleMessage true late_chunk unmounted = Done () unmounted.
Proof.
  split; [vm_compute; reflexivity|].
  apply (chunk_event_without_volume_ignored true late_chunk READ_CHUNK_DONE
           "vol1" "c7" unmounted).
  - left. reflexivity.
  - compute_request.
  - vm_compute. reflexivity.
Defined.

Lemma unknown_operation_changes_nothing_witness :
  final_state (HandleMessage true unknown_operation mounted) = Some mounted.
Proof.
  apply (unknown_operation_changes_nothing true unknown_operation mounted).
  intros o E. vm_compute in E. destruct o; discriminate E.
Defined.

(** For ["broken"] the recorder's [Init] fails: one error, nothing else. *)
Lemma init_failure_reported_once_witness :
  ∃ st',
    HandleMessage true broken_metadata mounted = Done () st' ∧
    posted st'
    = posted mounted
      ++ [CreateFileSystemError "broken" "r2"
            "Could not create a volume for: broken."] ∧
    objects st' = objects mounted ∧
    objects st' !! fresh (dom (objects mounted)) = None ∧
    volumes_ st' = volumes_ mounted.
Proof.
  apply (init_failure_reported_once true broken_metadata "broken" "r2"
           mounted).
  - compute_request.
  - right. vm_compute. reflexivity.
  - reflexivity.
Defined.

(** Mounting ["vol2"] next to ["vol1"]. *)
Lemma read_metadata_registers_volume_witness :
  ∃ st',
    HandleMessage true second_metadata mounted = Done () st' ∧
    volumes_ st' !! "vol2" = Some 2%positive ∧
    objects st' !! 2%positive
    = Some (mkRecorder "vol2" [CallInit; CallReadMetadata "r2" 2048]) ∧
    posted st'
    = posted mounted ++ [CreateReadChunkRequest "vol2" "r2" 0 2048].
Proof.
  destruct (read_metadata_registers_volume true second_metadata "vol2" "r2"
              mounted (mkRecorder "vol2" [CallInit]))
    as (st' & Hdone & _ & Hreg & _ & _ & _ & Hobj & Hposted).
  - compute_request.
  - vm_compute. reflexivity.
  - reflexivity.
  - exists st'. split; [exact Hdone|]. split; [exact Hreg|].
    split; [exact Hobj | exact Hposted].
Defined.

Lemma close_volume_posts_nothing_witness :
  ∃ st',
    HandleMessage true close_mounted mounted = Done () st' ∧
    volumes_ st' = delete "vol1" (volumes_ mounted) ∧
    volumes_ st' !! "vol1" = None ∧
    objects st' = delete 1%positive (objects mounted) ∧
    objects st' !! 1%positive = None ∧
    posted st' = posted mounted.
Proof.
  apply (close_volume_posts_nothing true close_mounted "vol1" "r2" mounted
           1%positive).
  - compute_request.
  - exact mounted_ok.
  - vm_compute. reflexivity.
Defined.

Lemma file_request_on_unknown_volume_aborts_witness :
  HandleMessage true open_unknown mounted = Abort mounted.
Proof.
  apply (file_request_on_unknown_volume_aborts open_unknown OPEN_FILE "nope"
           "r2" mounted).
  - left. reflexivity.
  - compute_request.
  - vm_compute. reflexivity.
Defined.

Lemma close_volume_absent_aborts_present_released_witness :
  HandleMessage true close_unknown mounted = Abort mounted ∧
  ∃ st',
    HandleMessage false close_mounted mounted = Done () st' ∧
    volumes_ st' !! "vol1" = None ∧
    objects st' !! 1%positive = None.
Proof.
  split.
  - pose proof (close_volume_absent_aborts_present_released close_unknown
                  "nope" "r2" mounted) as W.
    assert (E : volumes_ mounted !! "nope" = None) by (vm_compute; reflexivity).
    rewrite E in W. apply W.
    + compute_request.
    + exact mounted_ok.
  - pose proof (close_volume_absent_aborts_present_released close_mounted
                  "vol1" "r2" mounted) as W.
    assert (E : volumes_ mounted !! "vol1" = Some 1%positive)
      by (vm_compute; reflexivity).
    rewrite E in W.
    destruct W with (assertions := false) as (st' & Hdone & Hgone & _ & Hfree & _).
    + compute_request.
    + exact mounted_ok.
    + exists st'. split; [exact Hdone|]. split; [exact Hgone | exact Hfree].
Defined.

Lemma duplicate_read_metadata_aborts_witness :
  HandleMessage true duplicate_metadata mounted = Abort mounted.
Proof.
  apply (duplicate_read_metadata_aborts duplicate_metadata "vol1" "r2" mounted).
  - compute_request.
  - exists 1%positive. vm_compute. reflexivity.
Defined.

Lemma read_file_length_asserted_witness :
  HandleMessage true zero_read mounted = Abort mounted.
Proof.
  apply (read_file_length_asserted zero_read "vol1" "r3" mounted).
  - compute_request.
  - vm_compute. discriminate.
Defined.

Lemma one_delivery_in_flight_witness :
  steps trace idle = Some busy ∧
  position busy 0 = Posting (CreateOpenFileDoneResponse "vol1" "r2") ∧
  (0%nat = 0%nat ∧
   CreateOpenFileDoneResponse "vol1" "r2"
   = CreateOpenFileDoneResponse "vol1" "r2").
Proof.
  assert (Hreach : steps trace idle = Some busy) by (vm_compute; reflexivity).
  assert (Hpos : position busy 0
                 = Posting (CreateOpenFileDoneResponse "vol1" "r2"))
    by (vm_compute; reflexivity).
  split; [exact Hreach|]. split; [exact Hpos|].
  exact (one_delivery_in_flight trace busy 0 0 _ _ Hreach Hpos Hpos).
Defined.

(** ** Where the code departs from the specification *)

(** A second ReadMetadata for the mounted ["vol1"]: with assertions the
    process aborts; without, the registry entry is replaced. Neither way is
    the request answered by an error that leaves the state as it was. *)
Lemma duplicate_read_metadata_not_rejected :
  HandleMessage true duplicate_metadata mounted = Abort mounted ∧
  (st' ← final_state (HandleMessage false duplicate_metadata mounted);
   volumes_ st' !! "vol1") = Some 2%positive ∧
  volumes_ mounted !! "vol1" = Some 1%positive ∧
  ¬ answered_by_error "vol1" "r2" mounted
      (HandleMessage true duplicate_metadata mounted) ∧
  ¬ answered_by_error "vol1" "r2" mounted
      (HandleMessage false duplicate_metadata mounted).
Proof.
  repeat split; try (vm_compute; reflexivity);
    intros [message E]; vm_compute in E; discriminate E.
Qed.

(** OpenFile on a volume that is not mounted: an abort or undefined
    behaviour, never an error reply. *)
Lemma file_request_on_unknown_volume_not_answered :
  HandleMessage true open_unknown mounted = Abort mounted ∧
  HandleMessage false open_unknown mounted = Undefined ∧
  ¬ answered_by_error "nope" "r2" mounted
      (HandleMessage true open_unknown mounted) ∧
  ¬ answered_by_error "nope" "r2" mounted
      (HandleMessage false open_unknown mounted).
Proof.
  repeat split; try (vm_compute; reflexivity);
    intros [message E]; vm_compute in E; discriminate E.
Qed.

(** CloseVolume on a volume that is not mounted: likewise. *)
Lemma close_unknown_volume_not_answered :
  HandleMessage true close_unknown mounted = Abort mounted ∧
  HandleMessage false close_unknown mounted = Undefined ∧
  ¬ answered_by_error "nope" "r2" mounted
      (HandleMessage true close_unknown mounted) ∧
  ¬ answered_by_error "nope" "r2" mounted
      (HandleMessage false close_unknown mounted).
Proof.
  repeat split; try (vm_compute; reflexivity);
    intros [message E]; vm_compute in E; discriminate E.
Qed.

(** ReadFile with length 0: with assertions the process aborts; without,
    the request reaches [Volume::ReadFile], which answers it. *)
Lemma zero_length_read_not_rejected :
  HandleMessage true zero_read mounted = Abort mounted ∧
  (st' ← final_state (HandleMessage false zero_read mounted);
   v ← objects st' !! 1%positive;
   last (calls v))
  = Some (CallReadFile "r3" (var_dict_of zero_read)) ∧
  ¬ answered_by_error "vol1" "r3" mounted
      (HandleMessage true zero_read mounted) ∧
  ¬ answered_by_error "vol1" "r3" mounted
      (HandleMessage false zero_read mounted).
Proof.
  repeat split; try (vm_compute; reflexivity);
    intros [message E]; vm_compute in E; discriminate E.
Qed.

(** ** Further runs of the dispatcher and of the sender *)

Lemma both_mounted_reachable :
  run true [read_metadata "vol1" "r1" "1000"; second_metadata] initial
  = Done () both_mounted.
Proof. vm_compute. reflexivity. Qed.

Lemma both_mounted_ok : registry_ok both_mounted.
Proof. exact (reachable_ok true _ _ both_mounted_reachable). Defined.

Lemma second_mounts :
  HandleMessage true second_metadata mounted = Done () both_mounted.
Proof. vm_compute. reflexivity. Qed.

Lemma completed_message_effect_witness :
  Effect true
    (AsString (Get (var_dict_of close_mounted) kFileSystemId))
    (AsString (Get (var_dict_of close_mounted) kRequestId))
    mounted unmounted.
Proof.
  apply (completed_message_effect true close_mounted mounted unmounted).
  vm_compute. reflexivity.
Defined.

Lemma other_volumes_untouched_witness :
  volumes_ both_mounted !! "vol1" = volumes_ mounted !! "vol1" ∧
  ∀ q, volumes_ mounted !! "vol1" = Some q →
       objects both_mounted !! q = objects mounted !! q.
Proof.
  apply (other_volumes_untouched true second_metadata mounted both_mounted
           "vol1").
  - exact mounted_ok.
  - exact second_mounts.
  - vm_compute. discriminate.
Defined.


Lemma registry_invariant_witness :
  (∀ id p, volumes_ both_mounted !! id = Some p →
           is_Some (objects both_mounted !! p)) ∧
  (∀ id1 id2 p,
     volumes_ both_mounted !! id1 = Some p →
     volumes_ both_mounted !! id2 = Some p → id1 = id2).
Proof.
  exact (registry_invariant true _ both_mounted both_mounted_reachable).
Defined.

Lemma assertions_exclude_leak_witness : no_leak both_mounted.
Proof.
  exact (assertions_exclude_leak _ both_mounted both_mounted_reachable).
Defined.

(** The two Volumes are deleted whichever comes first. *)
Lemma destructor_deletes_registered_witness :
  ∃ st',
    delete_all [2%positive; 1%positive] both_mounted = Done () st' ∧
    destructor both_mounted = Done () st' ∧
    posted st' = posted both_mounted ∧
    (∀ id q, volumes_ both_mounted !! id = Some q → objects st' !! q = None) ∧
    (∀ q, (∀ id, volumes_ both_mounted !! id ≠ Some q) →
          objects st' !! q = objects both_mounted !! q).
Proof.
  apply (destructor_deletes_registered both_mounted [2%positive; 1%positive]).
  - exact both_mounted_ok.
  - vm_compute. first [ reflexivity | apply perm_swap ].
Defined.

Lemma destructor_frees_everything_witness :
  ∃ st', destructor both_mounted = Done () st' ∧ objects st' = ∅ ∧
         posted st' = posted both_mounted.
Proof.
  exact (destructor_frees_everything _ both_mounted both_mounted_reachable).
Defined.

Lemma mount_then_close_restores_witness :
  run true [second_metadata; close_second] mounted
  = Done () (mkState (volumes_ mounted) (objects mounted)
               (posted mounted ++ [CreateReadChunkRequest "vol2" "r2" 0 2048])).
Proof.
  etransitivity.
  - apply (mount_then_close_restores true second_metadata close_second "vol2"
             "r2" "r4" mounted (mkRecorder "vol2" [CallInit])).
    + compute_request.
    + compute_request.
    + vm_compute. reflexivity.
    + reflexivity.
  - vm_compute. reflexivity.
Defined.

Lemma unchecked_duplicate_leaks_volume_witness :
  ∃ st',
    HandleMessage false duplicate_metadata mounted = Done () st' ∧
    volumes_ st' !! "vol1" = Some (fresh (dom (objects mounted))) ∧
    is_Some (objects st' !! 1%positive) ∧
    (∀ id, volumes_ st' !! id ≠ Some 1%positive) ∧
    ¬ no_leak st'.
Proof.
  apply (unchecked_duplicate_leaks_volume duplicate_metadata "vol1" "r2"
           mounted 1%positive (mkRecorder "vol1" [CallInit])).
  - compute_request.
  - exact mounted_ok.
  - vm_compute. reflexivity.
  - reflexivity.
Defined.

Lemma registered_request_forwarded_witness :
  HandleMessage true open_mounted mounted
  = Done ()
      (mkState (volumes_ mounted)
         (<[1%positive :=
              mkRecorder "vol1"
                [CallInit; CallReadMetadata "r1" 1000;
                 CallOpenFile "r2" "a.txt" 1000]]> (objects mounted))
         (posted mounted ++ [CreateOpenFileDoneResponse "vol1" "r2"])).
Proof.
  apply (registered_request_forwarded true open_mounted OPEN_FILE "vol1" "r2"
           mounted 1%positive
           (mkRecorder "vol1" [CallInit; CallReadMetadata "r1" 1000])
           (Volume_OpenFile "r2" "a.txt" 1000)).
  - compute_request.
  - vm_compute. reflexivity.
  - vm_compute. reflexivity.
  - vm_compute. reflexivity.
  - discriminate.
Defined.

Lemma malformed_message_aborts_witness :
  HandleMessage true not_a_dictionary mounted = Abort mounted.
Proof.
  apply (malformed_message_aborts not_a_dictionary mounted). reflexivity.
Defined.

Lemma missing_field_aborts_witness :
  HandleMessage true open_without_path mounted = Abort mounted.
Proof.
  apply (missing_field_aborts open_without_path OPEN_FILE "vol1" "r2" mounted);
    try (vm_compute; reflexivity).
  discriminate.
Defined.

Lemma archive_size_asserted_after_registering_witness :
  HandleMessage true metadata_without_size mounted
  = Abort (mkState
             (<[ "vol2" := fresh (dom (objects mounted))]> (volumes_ mounted))
             (<[fresh (dom (objects mounted)) := mkRecorder "vol2" [CallInit]]>
                (objects mounted))
             (posted mounted)).
Proof.
  apply (archive_size_asserted_after_registering metadata_without_size "vol2"
           "r2" mounted (mkRecorder "vol2" [CallInit]));
    vm_compute; reflexivity.
Defined.

Lemma completed_message_was_request_witness :
  ∃ o,
    is_dictionary close_mounted = true ∧
    Get (var_dict_of close_mounted) kOperation = VarInt (code o) ∧
    is_string (Get (var_dict_of close_mounted) kFileSystemId) = true ∧
    is_string (Get (var_dict_of close_mounted) kRequestId) = true ∧
    (o ≠ READ_METADATA → required_fields o (var_dict_of close_mounted) = true) ∧
    (o = READ_FILE → AsInt (Get (var_dict_of close_mounted) kLength) > 0).
Proof.
  apply (completed_message_was_request close_mounted mounted unmounted).
  vm_compute. reflexivity.
Defined.

Lemma unknown_volume_unchecked_witness :
  HandleMessage false open_unknown mounted = Undefined.
Proof.
  apply (unknown_volume_unchecked open_unknown OPEN_FILE "nope" "r2" mounted).
  - left. reflexivity.
  - compute_request.
  - vm_compute. reflexivity.
Defined.

Lemma busy_reachable : steps trace idle = Some busy.
Proof. vm_compute. reflexivity. Qed.

Lemma lock_held_inside_only_witness :
  in_section (position busy 0) = true ↔ post_message_lock_ busy = Some 0%nat.
Proof. exact (lock_held_inside_only trace busy 0%nat busy_reachable). Defined.

Lemma some_thread_inside_can_step_witness :
  ∃ e s',
    step e busy = Some s' ∧
    position busy (thread_of e) ≠ Outside ∧
    (thread_of e = 1%nat ∨ post_message_lock_ busy = Some (thread_of e)).
Proof.
  apply (some_thread_inside_can_step trace busy 1%nat busy_reachable).
  vm_compute. discriminate.
Defined.

Lemma every_call_can_complete_witness :
  ∃ es' s' before,
    steps es' busy = Some s' ∧
    position s' 1 = Outside ∧
    post_message_lock_ s' = None ∧
    (length before ≤ 1)%nat ∧
    delivered s'
    = delivered busy ++ before ++ option_list (message_in (position busy 1)).
Proof.
  apply (every_call_can_complete trace busy 1%nat busy_reachable).
  vm_compute. discriminate.
Defined.

Lemma messages_conserved_witness :
  handed_over trace ≡ₚ delivered busy ++ in_transit busy.
Proof. exact (messages_conserved trace busy busy_reachable). Defined.

Lemma SafePostMessage_alone_witness :
  steps [Enter 2 (SendOpenFileDone "vol1" "r9"); Acquire 2; BeginPost 2;
         EndPost 2; Release 2] idle
  = Some (mkSender None (<[2%nat := Outside]> (positions idle))
            (delivered idle ++ [CreateOpenFileDoneResponse "vol1" "r9"])).
Proof.
  apply (SafePostMessage_alone idle 2%nat (SendOpenFileDone "vol1" "r9"));
    reflexivity.
Defined.
